(** * Edit-Split: the sentence splitter of [sentence_splitter.py]

    A shallow embedding of [preprocess_text] and [split_into_sentences],
    together with the parts of Python they rely on: [str] methods
    ([strip], [split], [count], slices, indexing) and the backtracking
    regular-expression matcher behind [re.match], [re.search] and [re.sub].

    A Python [str] is a sequence of Unicode code points: a character is a
    code point in [N] and a string a list of them.  Indexing can raise
    [IndexError]; it is modelled by the partial lookup [l !! i], and the
    segmenter runs in the [option] monad. *)

From Stdlib Require Import NArith String Ascii.
From stdpp Require Import base option numbers list gmap.

Local Open Scope N_scope.
Local Open Scope nat_scope.

Abbreviation char := N (only parsing).
Abbreviation pystr := (list N) (only parsing).

(** A string literal, as the list of its code points. *)
Definition py (s : string) : pystr := map N_of_ascii (list_ascii_of_string s).

(** ** Characters *)

Module Chr.

Definition NL : char := 10%N.      (* newline *)
Definition SP : char := 32%N.      (* space *)
Definition BANG : char := 33%N.    (* exclamation mark *)
Definition QUOTE : char := 34%N.   (* double quote *)
Definition LPAREN : char := 40%N.  (* opening parenthesis *)
Definition RPAREN : char := 41%N.  (* closing parenthesis *)
Definition DOT : char := 46%N.     (* full stop *)
Definition QMARK : char := 63%N.   (* question mark *)

Definition between (lo hi c : char) : bool := ((lo <=? c) && (c <=? hi))%N.

(** [str.isspace] for one character, which is also the class [\s] of a
    [str] pattern: the code points CPython lists as whitespace. *)
Definition isspace (c : char) : bool :=
  between 9 13 c || between 28 32 c || (c =? 133)%N || (c =? 160)%N
  || (c =? 5760)%N || between 8192 8202 c || (c =? 8232)%N || (c =? 8233)%N
  || (c =? 8239)%N || (c =? 8287)%N || (c =? 12288)%N.

Definition upper_az (c : char) : bool := between 65 90 c.    (* [A-Z] *)
Definition lower_az (c : char) : bool := between 97 122 c.   (* [a-z] *)
Definition letter_az (c : char) : bool := upper_az c || lower_az c. (* [A-Za-z] *)

(** [char in s] for a one-character [char]. *)
Definition among (s : pystr) (c : char) : bool := existsb (N.eqb c) s.

End Chr.

(** ** [str] methods *)

Module Str.

Fixpoint lstrip_by (p : char → bool) (s : pystr) : pystr :=
  match s with
  | c :: s' => if p c then lstrip_by p s' else s
  | [] => []
  end.

Fixpoint rstrip_by (p : char → bool) (s : pystr) : pystr :=
  match s with
  | c :: s' =>
      match rstrip_by p s' with
      | [] => if p c then [] else [c]
      | r => c :: r
      end
  | [] => []
  end.

(** [s.lstrip()], [s.strip()], [s.rstrip('.')] *)
Definition lstrip (s : pystr) : pystr := lstrip_by Chr.isspace s.
Definition strip (s : pystr) : pystr :=
  rstrip_by Chr.isspace (lstrip_by Chr.isspace s).
Definition rstrip_chars (cs s : pystr) : pystr := rstrip_by (Chr.among cs) s.

(** [s.count(c)] for a one-character [c] *)
Definition count (c : char) (s : pystr) : nat :=
  length (filter (λ d, d = c) s).

(** the slice [s[i:j]] for [0 <= i] and [0 <= j] *)
Definition slice (s : pystr) (i j : nat) : pystr := take (j - i) (drop i s).

(** [s.split()]: the maximal runs of non-whitespace characters.  [w] is
    the word being read. *)
Fixpoint split_ws_go (s w : pystr) : list pystr :=
  match s with
  | [] => match w with [] => [] | _ => [w] end
  | c :: s' =>
      if Chr.isspace c
      then match w with [] => split_ws_go s' [] | _ => w :: split_ws_go s' [] end
      else split_ws_go s' (w ++ [c])
  end.
Definition split_ws (s : pystr) : list pystr := split_ws_go s [].

Fixpoint starts_with (sep s : pystr) : bool :=
  match sep, s with
  | [], _ => true
  | a :: sep', b :: s' => (a =? b)%N && starts_with sep' s'
  | _ :: _, [] => false
  end.

(** [s.split(sep)] for a non-empty [sep]: left to right, each occurrence
    of [sep] that starts outside the previous one closes the current
    piece.  [skip] counts the characters of a found occurrence that are
    still to be passed over, [piece] is the piece being read. *)
Fixpoint split_go (sep s : pystr) (skip : nat) (piece : pystr) : list pystr :=
  match s with
  | [] => [piece]
  | c :: s' =>
      match skip with
      | S n => split_go sep s' n piece
      | O =>
          if starts_with sep s
          then piece :: split_go sep s' (length sep - 1) []
          else split_go sep s' 0 (piece ++ [c])
      end
  end.
Definition split (s sep : pystr) : list pystr := split_go sep s 0 [].

(** [s.replace(sep, repl)] for a non-empty [sep] *)
Fixpoint replace_go (sep repl s : pystr) (skip : nat) : pystr :=
  match s with
  | [] => []
  | c :: s' =>
      match skip with
      | S n => replace_go sep repl s' n
      | O =>
          if starts_with sep s
          then repl ++ replace_go sep repl s' (length sep - 1)
          else c :: replace_go sep repl s' 0
      end
  end.
Definition replace (s sep repl : pystr) : pystr := replace_go sep repl s 0.

End Str.

(** ** Regular expressions

    The patterns of the program, as syntax, and a backtracking matcher with
    the priorities of Python's [re]: [*] and [+] are greedy, and give
    characters back one round at a time when what follows fails. *)

Module Re.

Inductive regex : Type :=
| Bol                                   (* ^ *)
| Eol                                   (* $ *)
| Class (p : char → bool)               (* one character of a class *)
| NotAhead (p : char → bool)            (* (?![...]) for a class *)
| Cat (r1 r2 : regex)
| Star (r : regex)                      (* r*, greedy *)
| Plus (r : regex).                     (* r+, greedy *)

(** [.]: any character but a newline *)
Definition Dot : regex := Class (λ c, negb (c =? Chr.NL)%N).
(** a literal character *)
Definition Lit (a : char) : regex := Class (N.eqb a).
(** [[^a]] *)
Definition Not (a : char) : regex := Class (λ c, negb (c =? a)%N).
(** [\s] *)
Definition Space : regex := Class Chr.isspace.

(** [r] followed by each of [rs] in turn *)
Fixpoint seq (r : regex) (rs : list regex) : regex :=
  match rs with
  | [] => r
  | r' :: rs' => Cat r (seq r' rs')
  end.

(** Greedy iteration of [body]: one more round when it succeeds and uses
    at least one character, else the continuation.  [n] bounds the
    number of rounds by the number of characters left. *)
Fixpoint iterate (body : pystr → bool → (pystr → option pystr) → option pystr)
    (n : nat) (s : pystr) (bos : bool) (k : pystr → option pystr) : option pystr :=
  match n with
  | O => k s
  | S n' =>
      match body s bos (λ s', if length s' <? length s
                              then iterate body n' s' false k else None) with
      | Some e => Some e
      | None => k s
      end
  end.

(** [run r s bos k]: match [r] at the front of [s], then continue with
    [k] on what is left; [bos] tells that [s] is the whole subject (the
    position is 0).  The result is what is left after the whole match. *)
Fixpoint run (r : regex) (s : pystr) (bos : bool)
    (k : pystr → option pystr) : option pystr :=
  match r with
  | Bol => if bos then k s else None
  | Eol =>
      match s with
      | [] => k s
      | [c] => if (c =? Chr.NL)%N then k s else None
      | _ => None
      end
  | Class p =>
      match s with
      | c :: s' => if p c then k s' else None
      | [] => None
      end
  | NotAhead p =>
      match s with
      | c :: _ => if p c then None else k s
      | [] => k s
      end
  | Cat r1 r2 =>
      run r1 s bos (λ s', run r2 s' (bos && (length s' =? length s)) k)
  | Star r1 => iterate (run r1) (length s) s bos k
  | Plus r1 =>
      run r1 s bos (λ s', iterate (run r1) (length s') s'
                            (bos && (length s' =? length s)) k)
  end.

(** The match of [r] at the front of [s], as the number of characters
    it spans. *)
Definition match_at (r : regex) (s : pystr) (bos : bool) : option nat :=
  (λ rest, length s - length rest) <$> run r s bos Some.

(** truth of [re.match(r, s)] *)
Definition re_match (r : regex) (s : pystr) : bool :=
  bool_decide (is_Some (match_at r s true)).

(** truth of [re.search(r, s)]: the first position with a match *)
Fixpoint search_from (r : regex) (s : pystr) (bos : bool) : bool :=
  match match_at r s bos with
  | Some _ => true
  | None => match s with [] => false | _ :: s' => search_from r s' false end
  end.
Definition re_search (r : regex) (s : pystr) : bool := search_from r s true.

(** [re.sub(r, repl, s)] for a literal [repl]: left to right, each match
    is replaced and the scan goes on after it; an empty match is
    replaced and the next character copied.  [skip] counts the
    characters of the last match still to be passed over. *)
Fixpoint sub_from (r : regex) (repl s : pystr) (skip : nat) (bos : bool) : pystr :=
  match s with
  | [] =>
      match skip, match_at r [] bos with
      | O, Some _ => repl
      | _, _ => []
      end
  | c :: s' =>
      match skip with
      | S n => sub_from r repl s' n false
      | O =>
          match match_at r s bos with
          | Some (S n) => repl ++ sub_from r repl s' n false
          | Some O => repl ++ c :: sub_from r repl s' 0 false
          | None => c :: sub_from r repl s' 0 false
          end
      end
  end.
Definition re_sub (r : regex) (repl s : pystr) : pystr := sub_from r repl s 0 true.

End Re.

(** ** The program *)

(** The paragraph marker, the literal ['[PARAGRAPH BREAK]'] *)
Definition MARK : pystr := py "[PARAGRAPH BREAK]".

(** [bool(s)] for a string *)
Definition truthy (s : pystr) : bool :=
  match s with [] => false | _ :: _ => true end.

(** *** The patterns *)

Module Pat.
Import Re.

(** [\n\s*\n] *)
Definition BLANK_LINE : regex := seq (Lit Chr.NL) [Star Space; Lit Chr.NL].

(** [\n(?![PARAGRAPH BREAK])]: the brackets make a character class *)
Definition LONE_NEWLINE : regex :=
  seq (Lit Chr.NL) [NotAhead (Chr.among (py "PARAGRAPH BREAK"))].

(** [\s+] *)
Definition SPACES : regex := Plus Space.

(** [^([A-Za-z]+.)([A-Za-z]+.)+$]: the dots are not escaped *)
Definition MULTI_PART : regex :=
  seq Bol [Cat (Plus (Class Chr.letter_az)) Dot;
       Plus (Cat (Plus (Class Chr.letter_az)) Dot); Eol].

(** [^([A-Za-z].)([A-Za-z].)+$] *)
Definition MULTI_PART_1 : regex :=
  seq Bol [Cat (Class Chr.letter_az) Dot;
       Plus (Cat (Class Chr.letter_az) Dot); Eol].

(** [^\s*[A-Z]] *)
Definition CAPITAL_AHEAD : regex := seq Bol [Star Space; Class Chr.upper_az].

(** [^\s*Q[^Q]+[.!?]Q\s*[a-z]], where Q stands for the double quote *)
Definition ATTRIBUTION : regex :=
  seq Bol [Star Space; Lit Chr.QUOTE; Plus (Not Chr.QUOTE);
       Class (Chr.among (py ".!?")); Lit Chr.QUOTE; Star Space;
       Class Chr.lower_az].

End Pat.

(** *** preprocess_text *)

Definition preprocess_text (text : pystr) : pystr :=
  (* Replace multiple newlines with a special marker *)
  let text := Re.re_sub Pat.BLANK_LINE (Chr.NL :: MARK ++ [Chr.NL]) text in
  (* Replace single newlines with spaces *)
  let text := Re.re_sub Pat.LONE_NEWLINE [Chr.SP] text in
  (* Normalize whitespace *)
  let text := Re.re_sub Pat.SPACES [Chr.SP] text in
  Str.strip text.

(** *** split_into_sentences *)

(** [char in '.!?'] *)
Definition terminator (c : char) : bool := Chr.among (py ".!?") c.

(** The state of the [while] loop: the index [i], the sentence being read
    and the sentences found so far. *)
Record scan_state : Type := ScanState {
  pos : nat;
  current_sentence : pystr;
  sentences : list pystr
}.

Section Segmenter.

(** [str.isalpha] outside ASCII is the Unicode database's business; it is
    a parameter here. *)
Variable unicode_isalpha : char → bool.

Definition isalpha (c : char) : bool :=
  if (c <? 128)%N then Chr.letter_az c else unicode_isalpha c.

(** The abbreviations, a Python [set] of strings *)
Variable abbreviations : gset pystr.

(** [len(w) == 2 and w[0].isalpha() and w[1] == '.'], and the same shape
    for [i+2 < len(p) and p[i+1].isalpha() and p[i+2] == '.'] *)
Definition alpha_then_dot (guard : bool) (w : pystr) (j : nat) : option bool :=
  if guard then
    a ← w !! j;
    if isalpha a then b ← w !! (j + 1); Some (b =? Chr.DOT)%N else Some false
  else Some false.

(** The [if char == '.'] block that sets [is_abbr]; [i] is the index after
    the ellipsis step. *)
Definition is_abbreviation (paragraph : pystr) (i : nat)
    (current_sentence : pystr) : option bool :=
  let words := Str.split_ws (Str.strip current_sentence) in
  match last words with
  | None => Some false
  | Some last_word =>
      if Re.re_match Pat.MULTI_PART last_word
         || Re.re_match Pat.MULTI_PART_1 last_word
      then Some true
      else
        two ← alpha_then_dot (length last_word =? 2) last_word 0;
        if two : bool then Some true
        else
          mid ← alpha_then_dot (i + 2 <? length paragraph) paragraph (i + 1);
          if mid : bool then Some true
          else
            let word_without_period := Str.rstrip_chars [Chr.DOT] last_word in
            if bool_decide (word_without_period ∈ abbreviations) then Some true
            else if bool_decide (last_word ∈ abbreviations) then Some true
            else Some false
  end.

(** One round of the [while] loop *)
Definition scan_step (paragraph : pystr) (st : scan_state) : option scan_state :=
  let i := pos st in
  char ← paragraph !! i;
  let current_sentence := current_sentence st ++ [char] in
  if terminator char then
    let next_chars :=
      if i + 1 <? length paragraph then Str.slice paragraph (i + 1) (i + 20) else [] in
    let open_quotes := negb (Str.count Chr.QUOTE current_sentence mod 2 =? 0) in
    let open_parens :=
      Str.count Chr.RPAREN current_sentence <? Str.count Chr.LPAREN current_sentence in
    let is_ellipsis :=
      (char =? Chr.DOT)%N && (i + 2 <? length paragraph)
      && bool_decide (Str.slice paragraph (i + 1) (i + 3) = [Chr.DOT; Chr.DOT]) in
    let current_sentence :=
      if is_ellipsis then current_sentence ++ Str.slice paragraph (i + 1) (i + 3)
      else current_sentence in
    let i := if is_ellipsis then i + 2 else i in
    is_abbr ← (if (char =? Chr.DOT)%N
                then is_abbreviation paragraph i current_sentence
                else Some false);
    if negb open_quotes && negb open_parens && negb is_abbr
       && (negb is_ellipsis
           || (is_ellipsis
               && Re.re_match Pat.CAPITAL_AHEAD (Str.lstrip next_chars)))
    then
      if Re.re_search Pat.ATTRIBUTION current_sentence
      then Some (ScanState (i + 1) current_sentence (sentences st))
      else Some (ScanState (i + 1) [] (sentences st ++ [Str.strip current_sentence]))
    else Some (ScanState (i + 1) current_sentence (sentences st))
  else Some (ScanState (i + 1) current_sentence (sentences st)).

(** [while i < len(paragraph)]; [None] when the rounds allowed run out *)
Fixpoint scan (fuel : nat) (paragraph : pystr) (st : scan_state) : option scan_state :=
  if length paragraph <=? pos st then Some st
  else
    match fuel with
    | O => None
    | S fuel' => st' ← scan_step paragraph st; scan fuel' paragraph st'
    end.

(** The body of [for paragraph in paragraphs], on the pair
    [(current_sentence, sentences)] *)
Definition do_paragraph (paragraphs : list pystr) (acc : pystr * list pystr)
    (paragraph : pystr) : option (pystr * list pystr) :=
  if negb (truthy (Str.strip paragraph)) then Some acc
  else
    st ← scan (length paragraph) paragraph (ScanState 0 acc.1 acc.2);
    (* Add any remaining text in the paragraph *)
    let '(current_sentence, sentences) :=
      if truthy (Str.strip (current_sentence st))
      then ([], sentences st ++ [Str.strip (current_sentence st)])
      else (current_sentence st, sentences st) in
    (* Add paragraph break if this isn't the last paragraph *)
    last_paragraph ← last paragraphs;
    if bool_decide (paragraph ≠ last_paragraph)
    then Some (current_sentence, sentences ++ [MARK])
    else Some (current_sentence, sentences).

Fixpoint for_paragraphs (paragraphs : list pystr) (acc : pystr * list pystr)
    (todo : list pystr) : option (pystr * list pystr) :=
  match todo with
  | [] => Some acc
  | paragraph :: todo' =>
      acc' ← do_paragraph paragraphs acc paragraph;
      for_paragraphs paragraphs acc' todo'
  end.

Definition split_into_sentences (text : pystr) : option (list pystr) :=
  let paragraphs := Str.split text MARK in
  snd <$> for_paragraphs paragraphs ([], []) paragraphs.

End Segmenter.

(** The default set of [load_abbreviations] *)
Definition DEFAULT_ABBREVIATIONS : gset pystr :=
  list_to_set (map py
    ["Mr"; "Mrs"; "Ms"; "Dr"; "Prof"; "Rev"; "Hon"; "St"; "Sr"; "Jr";
     "e.g"; "i.e"; "etc"; "vs"; "a.m"; "p.m"; "U.S"; "U.K"; "U.N";
     "Ph.D"; "M.D"; "B.A"; "M.A"; "B.Sc"; "M.Sc"; "Inc"; "Ltd"; "Co";
     "Jan"; "Feb"; "Mar"; "Apr"; "Jun"; "Jul"; "Aug"; "Sep"; "Sept"; "Oct";
     "Nov"; "Dec"]%string).

(** *** load_abbreviations *)

(** What opening and reading the file gives: its text, with the line ends
    translated to newlines as the text mode does, [FileNotFoundError], or
    another error, which [load_abbreviations] does not catch. *)
Inductive opened : Type :=
| FileText (content : pystr)
| FileNotFound
| OtherError.

(** [for line in file]: the lines of the text, each with its newline; the
    last one has none when the text does not end with one.  [line] is the
    line being read. *)
Fixpoint file_lines_go (s line : pystr) : list pystr :=
  match s with
  | [] => match line with [] => [] | _ => [line] end
  | c :: s' =>
      if (c =? Chr.NL)%N
      then (line ++ [c]) :: file_lines_go s' []
      else file_lines_go s' (line ++ [c])
  end.
Definition file_lines (s : pystr) : list pystr := file_lines_go s [].

(** [{line.strip() for line in file if line.strip()}] *)
Definition stripped_lines (lines : list pystr) : gset pystr :=
  list_to_set (Str.strip <$> filter (λ line, truthy (Str.strip line) = true) lines).

(** [None] stands for an exception that leaves the function. *)
Definition load_abbreviations (file : opened) : option (gset pystr) :=
  match file with
  | FileText content => Some (stripped_lines (file_lines content))
  | FileNotFound => Some DEFAULT_ABBREVIATIONS
  | OtherError => None
  end.

(** *** write_to_csv *)

Module Csv.

Definition CR : char := 13%N.      (* carriage return *)
Definition COMMA : char := 44%N.   (* comma *)

(** The characters that make [csv.writer] quote a field, in its default
    dialect: the delimiter, the quote character and those of the line
    terminator. *)
Definition special (c : char) : bool :=
  (c =? COMMA)%N || (c =? Chr.QUOTE)%N || (c =? CR)%N || (c =? Chr.NL)%N.

(** The field with each double quote doubled *)
Definition doubled (s : pystr) : pystr :=
  flat_map (λ c, if (c =? Chr.QUOTE)%N then [Chr.QUOTE; Chr.QUOTE] else [c]) s.

(** [writer.writerow([s])]: the field as it is, or in double quotes when
    it has a special character or is empty, then the line terminator. *)
Definition field (s : pystr) : pystr :=
  if truthy s && negb (existsb special s) then s
  else Chr.QUOTE :: doubled s ++ [Chr.QUOTE].
Definition writerow (s : pystr) : pystr := field s ++ [CR; Chr.NL].

End Csv.

(** The text that [write_to_csv] writes to the file, opened with
    [newline=''] *)
Definition write_to_csv (sentences : list pystr) : pystr :=
  concat (Csv.writerow <$> sentences).

(** *** main: the two lines under [# Process text] *)

Definition process_text (unicode_isalpha : char → bool) (abbreviations : gset pystr)
    (text : pystr) : option (list pystr) :=
  let preprocessed_text := preprocess_text text in
  split_into_sentences unicode_isalpha abbreviations preprocessed_text.


(** * Vocabulary of the statements *)

(** A string of whitespace only *)
Definition blank (s : pystr) : Prop := Forall (λ c, Chr.isspace c = true) s.

(** A string with every whitespace character deleted *)
Definition dewhite (s : pystr) : pystr := filter (λ c, Chr.isspace c = false) s.

(** [t in s] for strings: [t] is a substring of [s] *)
Definition occurs_in (t s : pystr) : Prop := ∃ a b, s = a ++ t ++ b.


(** The sentence tokens: all but the markers *)
Definition non_marks (tokens : list pystr) : list pystr :=
  filter (λ t, t ≠ MARK) tokens.

(** No occurrence of [sep] in [t] starts before position [k]. *)
Definition free_before (sep : pystr) (k : nat) (t : pystr) : Prop :=
  ∀ a b, t = a ++ sep ++ b → k ≤ length a.

(** What a round does to the state: it reads a chunk of one character, or of
    three for an ellipsis, and either keeps it in the sentence being read or
    closes that sentence.  Only a single terminator closes a sentence, and
    only with the quotes paired, no parenthesis open and no attribution. *)
Inductive step_outcome (p : pystr) (st st' : scan_state) : Prop :=
| step_keep (chunk : pystr) :
    drop (pos st) p = chunk ++ drop (pos st') p →
    pos st' = pos st + length chunk →
    chunk ≠ [] →
    pos st' ≤ length p →
    current_sentence st' = current_sentence st ++ chunk →
    sentences st' = sentences st →
    step_outcome p st st'
| step_emit (c : char) :
    drop (pos st) p = c :: drop (pos st') p →
    pos st' = S (pos st) →
    pos st' ≤ length p →
    terminator c = true →
    Str.count Chr.QUOTE (current_sentence st ++ [c]) mod 2 = 0 →
    Str.count Chr.LPAREN (current_sentence st ++ [c])
      ≤ Str.count Chr.RPAREN (current_sentence st ++ [c]) →
    Re.re_search Pat.ATTRIBUTION (current_sentence st ++ [c]) = false →
    Str.slice p (S (pos st)) (pos st + 3) ≠ [Chr.DOT; Chr.DOT] ∨ c ≠ Chr.DOT
      ∨ length p ≤ pos st + 2 →
    current_sentence st' = [] →
    sentences st' = sentences st ++ [Str.strip (current_sentence st ++ [c])] →
    step_outcome p st st'.

(** A sentence token of paragraph [p]: trimmed, not empty, a substring of [p] *)
Definition sentence_of (p t : pystr) : Prop :=
  Str.strip t = t ∧ t ≠ [] ∧ occurs_in t p.

(** The invariant of the [while] loop: the sentence being read is
    whitespace left over from earlier paragraphs, then the characters of
    [p] from some index up to [pos st]. *)
Definition reading (p : pystr) (st : scan_state) : Prop :=
  ∃ w pre x, blank w ∧ current_sentence st = w ++ x
    ∧ p = pre ++ x ++ drop (pos st) p ∧ pos st ≤ length p.

(** What the rounds from [st] to [st'] have added: tokens [toks], with no
    character other than whitespace lost. *)
Definition advanced (p : pystr) (st st' : scan_state) (toks : list pystr) : Prop :=
  sentences st' = sentences st ++ toks
  ∧ Forall (sentence_of p) toks
  ∧ dewhite (concat toks ++ current_sentence st' ++ drop (pos st') p)
    = dewhite (current_sentence st ++ drop (pos st) p).

(** The marker the program adds after paragraph [p]: none after a blank
    paragraph, none after one equal to the last paragraph. *)
Definition marker_after (paragraphs : list pystr) (p : pystr) : list pystr :=
  if truthy (Str.strip p) && bool_decide (Some p ≠ last paragraphs)
  then [MARK] else [].

(** The tokens of the paragraphs [todo], given the sentence tokens [tss] of
    each: the sentences of a paragraph, then its marker. *)
Definition layout (paragraphs todo : list pystr) (tss : list (list pystr)) : list pystr :=
  concat (zip_with (λ p ts, ts ++ marker_after paragraphs p) todo tss).

(** The sentence tokens [ts] of paragraph [p] keep its characters. *)
Definition sentences_of (p : pystr) (ts : list pystr) : Prop :=
  Forall (sentence_of p) ts ∧ dewhite (concat ts) = dewhite p.

(** Whitespace squeezed: every whitespace character is a space, and no two
    of them are adjacent. *)
Fixpoint squeezed (s : pystr) : Prop :=
  match s with
  | [] => True
  | c :: s' =>
      (Chr.isspace c = true →
       c = Chr.SP ∧ match s' with d :: _ => Chr.isspace d = false | [] => True end)
      ∧ squeezed s'
  end.

(** [re.split(r, s)] for a pattern without groups that matches no empty
    string: the pieces of [s] between the matches of [r]. *)
Fixpoint split_from (r : Re.regex) (s : pystr) (skip : nat) (bos : bool)
    (piece : pystr) : list pystr :=
  match s with
  | [] => [piece]
  | c :: s' =>
      match skip with
      | S n => split_from r s' n false piece
      | O =>
          match Re.match_at r s bos with
          | Some (S n) => piece :: split_from r s' n false []
          | _ => split_from r s' 0 false (piece ++ [c])
          end
      end
  end.

(** The blocks of a source text: what its blank lines separate. *)
Definition source_blocks (raw : pystr) : list pystr :=
  split_from Pat.BLANK_LINE raw 0 true [].


(** ** Vocabulary of the further properties *)

(** Whitespace is single spaces: every whitespace character of [t] is a
    space, and no two whitespace characters are adjacent. *)
Definition single_spaced (t : pystr) : Prop :=
  (∀ c, c ∈ t → Chr.isspace c = true → c = Chr.SP)
  ∧ (∀ a c d b, t = a ++ c :: d :: b → Chr.isspace c = true → Chr.isspace d = false).

(** Every marker of [tokens] directly follows a token that is no marker. *)
Definition markers_follow_sentences (tokens : list pystr) : Prop :=
  ∀ l1 l2, tokens = l1 ++ MARK :: l2 → ∃ l0 t, l1 = l0 ++ [t] ∧ t ≠ MARK.

(** A match ends where its continuation starts: on a suffix of the subject. *)
Definition ends_on_suffix
    (m : pystr → bool → (pystr → option pystr) → option pystr) : Prop :=
  ∀ s b k e, m s b k = Some e → ∃ s', s' `suffix_of` s ∧ k s' = Some e.

(** [sep.join(l)] *)
Fixpoint join (sep : pystr) (l : list pystr) : pystr :=
  match l with
  | [] => []
  | x :: l' => match l' with [] => x | _ :: _ => x ++ sep ++ join sep l' end
  end.

(** A sentence closed by the scanner: it ends with a terminator, its double
    quotes are paired and it has no more opening than closing
    parentheses. *)
Definition closed (t : pystr) : Prop :=
  (∃ c, last t = Some c ∧ terminator c = true)
  ∧ Str.count Chr.QUOTE t mod 2 = 0
  ∧ Str.count Chr.LPAREN t ≤ Str.count Chr.RPAREN t.

(** A token is a marker, a closed sentence, or the end of a paragraph of
    [ps]. *)
Definition closed_or_last (ps : list pystr) (t : pystr) : Prop :=
  t = MARK ∨ closed t ∨ ∃ p, p ∈ ps ∧ t `suffix_of` Str.strip p.

(** A string with no whitespace *)
Definition spaceless (w : pystr) : Prop := Forall (λ c, Chr.isspace c = false) w.

(** What the matcher finds, by the rules of the patterns: [matches b r s1 s2]
    says that [r] matches [s1] in front of [s2], at the start of the
    subject when [b]. *)
Inductive matches : bool → Re.regex → pystr → pystr → Prop :=
| matches_bol s2 : matches true Re.Bol [] s2
| matches_eol b : matches b Re.Eol [] []
| matches_eol_newline b : matches b Re.Eol [] [Chr.NL]
| matches_class b p c s2 : p c = true → matches b (Re.Class p) [c] s2
| matches_not_ahead_end b p : matches b (Re.NotAhead p) [] []
| matches_not_ahead b p c s2 : p c = false → matches b (Re.NotAhead p) [] (c :: s2)
| matches_cat b r1 r2 u v s2 :
    matches b r1 u (v ++ s2) → matches (b && bool_decide (u = [])) r2 v s2 →
    matches b (Re.Cat r1 r2) (u ++ v) s2
| matches_star_nil b r s2 : matches b (Re.Star r) [] s2
| matches_star_cons b r u v s2 :
    u ≠ [] → matches b r u (v ++ s2) → matches false (Re.Star r) v s2 →
    matches b (Re.Star r) (u ++ v) s2
| matches_plus b r u v s2 :
    matches b r u (v ++ s2) → matches (b && bool_decide (u = [])) (Re.Star r) v s2 →
    matches b (Re.Plus r) (u ++ v) s2.

(** ASCII letters only *)
Abbreviation letters l := (Forall (λ c, Chr.letter_az c = true) l).

(** * Properties *)

(** ** [str] methods *)

Section StrFacts.
Import Str.
Variable p : char → bool.

Lemma lstrip_by_split s :
  ∃ a, s = a ++ lstrip_by p s ∧ Forall (λ c, p c = true) a.
Proof.
  induction s as [|c s IH]; simpl.
  - by exists [].
  - destruct (p c) eqn:Hc.
    + destruct IH as (a & Ha & Hall). exists (c :: a). split.
      * simpl. by rewrite <- Ha.
      * by constructor.
    + by exists [].
Qed.

Lemma lstrip_by_head s c r : lstrip_by p s = c :: r → p c = false.
Proof.
  induction s as [|d s IH]; simpl; [done|].
  destruct (p d) eqn:Hd; [done|]. by intros [= -> _].
Qed.

Lemma lstrip_by_id s : (∀ c r, s = c :: r → p c = false) → lstrip_by p s = s.
Proof.
  destruct s as [|c s]; [done|]. intros H. simpl. by rewrite (H c s).
Qed.

Lemma lstrip_by_app w s : Forall (λ c, p c = true) w →
  lstrip_by p (w ++ s) = lstrip_by p s.
Proof. induction 1 as [|c w Hc _ IH]; simpl; [done|]. by rewrite Hc. Qed.

Lemma rstrip_by_split s :
  ∃ b, s = rstrip_by p s ++ b ∧ Forall (λ c, p c = true) b.
Proof.
  induction s as [|c s (b & Hb & Hall)]; simpl.
  - by exists [].
  - destruct (rstrip_by p s) as [|d r] eqn:Hr.
    + destruct (p c) eqn:Hc.
      * exists (c :: b). simpl in Hb. subst s. split; [done|by constructor].
      * exists b. simpl in *. by subst s.
    + exists b. split; [|done]. simpl. by rewrite Hb at 1.
Qed.

Lemma rstrip_by_head s c r : rstrip_by p s = c :: r → ∃ s', s = c :: s'.
Proof.
  destruct s as [|d s]; simpl; [done|].
  destruct (rstrip_by p s); [destruct (p d)|]; intros [= <- _]; eauto.
Qed.

Lemma rstrip_by_idem s : rstrip_by p (rstrip_by p s) = rstrip_by p s.
Proof.
  induction s as [|c s IH]; simpl; [done|].
  destruct (rstrip_by p s) as [|d r] eqn:Hr.
  - destruct (p c) eqn:Hc; simpl; [done|]. by rewrite Hc.
  - change (rstrip_by p (c :: d :: r)) with
      (match rstrip_by p (d :: r) with
       | [] => if p c then [] else [c]
       | r' => c :: r'
       end).
    by rewrite IH.
Qed.

End StrFacts.

Section StripFacts.
Import Str.

Lemma strip_split s : ∃ a b, s = a ++ strip s ++ b ∧ blank a ∧ blank b.
Proof.
  unfold strip.
  destruct (lstrip_by_split Chr.isspace s) as (a & Ha & Hblank_a).
  destruct (rstrip_by_split Chr.isspace (lstrip_by Chr.isspace s))
    as (b & Hb & Hblank_b).
  exists a, b. split; [|done]. rewrite <- Hb. exact Ha.
Qed.

Lemma strip_occurs_in s : occurs_in (strip s) s.
Proof. destruct (strip_split s) as (a & b & H & _). by exists a, b. Qed.

Lemma blank_nil : blank [].
Proof. constructor. Qed.

Lemma dewhite_blank s : blank s → dewhite s = [].
Proof.
  unfold blank, dewhite. induction 1 as [|c s Hc _ IH]; [done|].
  rewrite filter_cons_False; [done|]. by rewrite Hc.
Qed.

Lemma dewhite_app s t : dewhite (s ++ t) = dewhite s ++ dewhite t.
Proof. apply filter_app. Qed.

Lemma dewhite_strip s : dewhite (strip s) = dewhite s.
Proof.
  destruct (strip_split s) as (a & b & H & Ha & Hb).
  rewrite H at 2. rewrite !dewhite_app, (dewhite_blank a), (dewhite_blank b) by done.
  by rewrite app_nil_r.
Qed.

Lemma blank_app s t : blank (s ++ t) ↔ blank s ∧ blank t.
Proof. apply Forall_app. Qed.

Lemma strip_nil_blank s : strip s = [] → blank s.
Proof.
  intros Hs. destruct (strip_split s) as (a & b & H & Ha & Hb).
  rewrite Hs in H. rewrite H. by apply blank_app.
Qed.

Lemma strip_nonblank s c : c ∈ s → Chr.isspace c = false → strip s ≠ [].
Proof.
  intros Hin Hc Hs. apply strip_nil_blank in Hs.
  unfold blank in Hs. rewrite Forall_forall in Hs.
  specialize (Hs c Hin). congruence.
Qed.

Lemma strip_idem s : strip (strip s) = strip s.
Proof.
  unfold strip.
  set (y := lstrip_by Chr.isspace s).
  rewrite (lstrip_by_id Chr.isspace (rstrip_by Chr.isspace y)).
  - apply rstrip_by_idem.
  - intros c r Hr. apply rstrip_by_head in Hr as (s' & Hs').
    by apply (lstrip_by_head Chr.isspace s c s').
Qed.

Lemma strip_blank_app w s : blank w → strip (w ++ s) = strip s.
Proof. intros Hw. unfold strip. by rewrite lstrip_by_app. Qed.

Lemma truthy_true s : truthy s = true ↔ s ≠ [].
Proof. by destruct s. Qed.

Lemma truthy_false s : truthy s = false ↔ s = [].
Proof. by destruct s. Qed.

End StripFacts.

(** ** [str.split] and [str.replace] *)

Section SplitFacts.
Import Str.
Variable sep : pystr.
Hypothesis sep_nonempty : sep ≠ [].

Lemma starts_with_spec s : starts_with sep s = true ↔ ∃ r, s = sep ++ r.
Proof.
  clear sep_nonempty. revert s.
  induction sep as [|a sep' IH]; intros s; simpl.
  - split; [by exists s|done].
  - destruct s as [|b s]; [split; [done|by intros (? & ?)]|].
    rewrite andb_true_iff, N.eqb_eq, IH. split.
    + intros (-> & r & ->). by exists r.
    + intros (r & [= -> ->]). eauto.
Qed.

Lemma free_before_whole t : free_before sep (length t) (t ++ []) → ¬ occurs_in sep t.
Proof.
  intros Hfree (a & b & Ht). specialize (Hfree a b).
  rewrite app_nil_r in Hfree. specialize (Hfree Ht).
  apply (f_equal length) in Ht. rewrite !length_app in Ht.
  destruct sep; [done|]. simpl in Ht. lia.
Qed.

Lemma free_before_piece t s : free_before sep (length t) (t ++ s) → ¬ occurs_in sep t.
Proof.
  intros Hfree (a & b & Ht).
  specialize (Hfree a (b ++ s)). rewrite Ht, <- !app_assoc in Hfree.
  specialize (Hfree eq_refl). rewrite !length_app in Hfree.
  destruct sep; [done|]. simpl in Hfree. lia.
Qed.

Lemma free_before_snoc t c s :
  free_before sep (length t) (t ++ c :: s) → starts_with sep (c :: s) = false →
  free_before sep (length (t ++ [c])) ((t ++ [c]) ++ s).
Proof.
  intros Hfree Hno a b Hab. rewrite <- app_assoc in Hab. simpl in Hab.
  pose proof (Hfree a b Hab) as Hle. rewrite length_app. simpl.
  destruct (decide (length a = length t)) as [Heq|]; [|lia].
  apply app_inj_1 in Hab as [-> Hs]; [|done].
  assert (starts_with sep (c :: s) = true) by (apply starts_with_spec; eauto).
  congruence.
Qed.

Lemma split_go_free s : ∀ skip piece,
  (skip = 0 → free_before sep (length piece) (piece ++ s)) →
  (0 < skip → piece = []) →
  Forall (λ q, ¬ occurs_in sep q) (split_go sep s skip piece).
Proof.
  induction s as [|c s IH]; intros skip piece Hfree Hskip; simpl.
  - constructor; [|done]. destruct skip.
    + apply free_before_whole; auto.
    + rewrite Hskip by lia. intros (a & b & H).
      destruct a, sep; done.
  - destruct skip as [|n].
    + destruct (starts_with sep (c :: s)) eqn:Hsw.
      * constructor; [eapply free_before_piece; eauto|].
        apply IH; [|done]. intros _ a b _. simpl. lia.
      * apply IH; [|lia]. intros _. apply free_before_snoc; auto.
    + apply IH; [|auto]. intros _. rewrite Hskip by lia.
      intros a b _. simpl. lia.
Qed.

Lemma split_free s : Forall (λ q, ¬ occurs_in sep q) (split s sep).
Proof.
  apply split_go_free; [|lia]. intros _ a b _. simpl. lia.
Qed.

Lemma concat_split_go s : ∀ skip piece,
  concat (split_go sep s skip piece) = piece ++ replace_go sep [] s skip.
Proof.
  clear sep_nonempty.
  induction s as [|c s IH]; intros skip piece; simpl.
  - done.
  - destruct skip as [|n]; [|apply IH].
    destruct (starts_with sep (c :: s)); simpl.
    + by rewrite IH.
    + rewrite IH, <- app_assoc. done.
Qed.

(** Joining the pieces is deleting the separators. *)
Lemma concat_split s : concat (split s sep) = replace s sep [].
Proof. apply concat_split_go. Qed.

Lemma split_go_last s : ∀ skip piece, is_Some (last (split_go sep s skip piece)).
Proof.
  clear sep_nonempty.
  induction s as [|c s IH]; intros skip piece; simpl; [eauto|].
  destruct skip as [|n]; [|apply IH].
  destruct (starts_with sep (c :: s)); [|apply IH].
  destruct (IH (length sep - 1) []) as [x Hx].
  exists x. rewrite last_cons, Hx. done.
Qed.

End SplitFacts.

Lemma MARK_nonempty : MARK ≠ [].
Proof. done. Qed.

Lemma occurs_in_trans (t u s : pystr) : occurs_in t u → occurs_in u s → occurs_in t s.
Proof.
  intros (a & b & ->) (a' & b' & ->). exists (a' ++ a), (b ++ b').
  by rewrite <- !app_assoc.
Qed.

Lemma occurs_in_refl (t : pystr) : occurs_in t t.
Proof. exists [], []. by rewrite app_nil_r. Qed.

(** ** One round of the scanner *)

Lemma terminator_not_space c : terminator c = true → Chr.isspace c = false.
Proof.
  unfold terminator, Chr.among.
  change (py ".!?") with [46; 33; 63]%N. cbn [existsb].
  rewrite !orb_true_iff, !N.eqb_eq.
  intros [->|[->|[->|?]]]; done.
Qed.

Section ScanFacts.
Variable ua : char → bool.
Variable A : gset pystr.

Lemma alpha_then_dot_total guard (w : pystr) j :
  (guard = true → j + 1 < length w) → is_Some (alpha_then_dot ua guard w j).
Proof.
  intros Hlen. unfold alpha_then_dot. destruct guard; [|eauto].
  specialize (Hlen eq_refl).
  destruct (lookup_lt_is_Some_2 w j) as [a ->]; [lia|]. simpl.
  destruct (isalpha ua a); [|eauto].
  destruct (lookup_lt_is_Some_2 w (j + 1)) as [b ->]; [lia|]. simpl. eauto.
Qed.

Lemma is_abbreviation_total p i cur : is_Some (is_abbreviation ua A p i cur).
Proof.
  unfold is_abbreviation.
  destruct (last _) as [w|]; [|eauto].
  destruct (_ || _); [eauto|].
  destruct (alpha_then_dot_total (length w =? 2) w 0) as [two ->].
  { intros ?%Nat.eqb_eq. lia. }
  simpl. destruct two; [eauto|].
  destruct (alpha_then_dot_total (i + 2 <? length p) p (i + 1)) as [mid ->].
  { intros ?%Nat.ltb_lt. lia. }
  simpl. destruct mid; [eauto|].
  repeat case_bool_decide; eauto.
Qed.

(** After two dots, and whatever follows, no capital letter is ahead. *)
Lemma no_capital_after_dots (x : pystr) :
  Re.re_match Pat.CAPITAL_AHEAD (Str.lstrip (Chr.DOT :: Chr.DOT :: x)) = false.
Proof. vm_compute. reflexivity. Qed.

Lemma slice_two_dots (p : pystr) i :
  Str.slice p (i + 1) (i + 3) = [Chr.DOT; Chr.DOT] →
  drop (i + 1) p = Chr.DOT :: Chr.DOT :: drop (i + 3) p.
Proof.
  unfold Str.slice. replace (i + 3 - (i + 1)) with 2 by lia. intros H.
  rewrite <- (take_drop 2 (drop (i + 1) p)), H, drop_drop.
  by replace (i + 1 + 2) with (i + 3) by lia.
Qed.

(** The round keeps the one character [c] it read. *)
Local Ltac keep_char c :=
  eexists; split; [done|]; by apply (step_keep _ _ _ [c]); simpl; try lia.

Lemma scan_step_outcome p st :
  pos st < length p →
  ∃ st', scan_step ua A p st = Some st' ∧ step_outcome p st st'.
Proof.
  intros Hpos. unfold scan_step.
  destruct (lookup_lt_is_Some_2 p (pos st) Hpos) as [c Hc]. rewrite Hc.
  cbn [mbind option_bind].
  pose proof (drop_S _ _ _ Hc) as Hdrop. rewrite <- Nat.add_1_r in Hdrop.
  destruct (terminator c) eqn:Hterm; cycle 1.
  { keep_char c. }
  set (ell := (_ && bool_decide (_ = [Chr.DOT; Chr.DOT]))).
  destruct (is_abbreviation_total p (if ell then pos st + 2 else pos st)
    (if ell then (current_sentence st ++ [c]) ++ Str.slice p (pos st + 1) (pos st + 3)
     else current_sentence st ++ [c])) as [b Hb].
  assert (∃ b', (if (c =? Chr.DOT)%N
                 then is_abbreviation ua A p (if ell then pos st + 2 else pos st)
                   (if ell then (current_sentence st ++ [c])
                                  ++ Str.slice p (pos st + 1) (pos st + 3)
                    else current_sentence st ++ [c])
                 else Some false) = Some b') as [b' ->].
  { destruct (c =? Chr.DOT)%N; eauto. }
  cbn [mbind option_bind]. clear b Hb.
  destruct ell eqn:Hell.
  - (* an ellipsis: never closed *)
    subst ell. apply andb_true_iff in Hell as [Hell Hdots].
    apply andb_true_iff in Hell as [_ Hlen].
    apply Nat.ltb_lt in Hlen. apply bool_decide_eq_true in Hdots.
    pose proof (slice_two_dots _ _ Hdots) as Hdrop2.
    assert (Hnext : (if pos st + 1 <? length p
                     then Str.slice p (pos st + 1) (pos st + 20) else [])
                    = Chr.DOT :: Chr.DOT :: take 17 (drop (pos st + 3) p)).
    { destruct (Nat.ltb_spec (pos st + 1) (length p)); [|lia].
      unfold Str.slice. replace (pos st + 20 - (pos st + 1)) with 19 by lia.
      by rewrite Hdrop2. }
    rewrite Hnext, no_capital_after_dots, Hdots.
    rewrite !andb_false_r. cbn [negb orb andb].
    eexists. split; [done|].
    apply (step_keep _ _ _ [c; Chr.DOT; Chr.DOT]); simpl; auto; try lia.
    + rewrite Hdrop. replace (S (pos st)) with (pos st + 1) by lia.
      rewrite Hdrop2. by replace (pos st + 2 + 1) with (pos st + 3) by lia.
    + by rewrite <- app_assoc.
  - (* a single terminator *)
    cbn [negb orb]. rewrite andb_true_r.
    set (cur := current_sentence st ++ [c]).
    destruct (negb (negb (Str.count Chr.QUOTE cur mod 2 =? 0))) eqn:Hq;
      cbn [andb]; cycle 1.
    { keep_char c. }
    destruct (negb (Str.count Chr.RPAREN cur <? Str.count Chr.LPAREN cur)) eqn:Hp;
      cbn [andb]; cycle 1.
    { keep_char c. }
    destruct b'; cbn [negb].
    { keep_char c. }
    destruct (Re.re_search Pat.ATTRIBUTION cur) eqn:Hattr.
    { keep_char c. }
    eexists. split; [done|].
    rewrite negb_involutive in Hq. apply Nat.eqb_eq in Hq.
    apply negb_true_iff, Nat.ltb_ge in Hp.
    apply (step_emit _ _ _ c); simpl; auto; try lia.
    subst ell. replace (S (pos st)) with (pos st + 1) by lia.
    apply andb_false_iff in Hell as [Hell|Hdots].
    + apply andb_false_iff in Hell as [Hdot|Hlen].
      * right; left. by apply N.eqb_neq.
      * right; right. apply Nat.ltb_ge in Hlen. lia.
    + left. by apply bool_decide_eq_false in Hdots.
Qed.

End ScanFacts.

(** ** The scan of one paragraph *)

Section LoopFacts.
Variable ua : char → bool.
Variable A : gset pystr.

Lemma sentence_of_strip p w x c :
  blank w → Chr.isspace c = false → occurs_in (x ++ [c]) p →
  sentence_of p (Str.strip (w ++ x ++ [c])).
Proof.
  intros Hw Hc Hocc. rewrite strip_blank_app by done.
  split; [apply strip_idem|]. split.
  - apply (strip_nonblank _ c); [|done]. set_solver.
  - eapply occurs_in_trans; [apply strip_occurs_in|done].
Qed.

Lemma step_outcome_reading p st st' :
  reading p st → step_outcome p st st' →
  reading p st' ∧ ∃ toks, advanced p st st' toks.
Proof.
  intros (w & pre & x & Hw & Hcur & Hp & Hle) Hstep.
  destruct Hstep as [chunk Hdrop Hpos Hne Hle' Hcur' Hsent
                    |c Hdrop Hpos Hle' Hterm _ _ _ _ Hcur' Hsent].
  - split.
    + exists w, pre, (x ++ chunk). repeat split; [done| | |done].
      * by rewrite Hcur', Hcur, <- app_assoc.
      * by rewrite <- app_assoc, <- Hdrop.
    + exists []. repeat split; [by rewrite app_nil_r|constructor|].
      simpl. by rewrite Hcur', <- app_assoc, <- Hdrop.
  - apply terminator_not_space in Hterm.
    split.
    + exists [], (pre ++ x ++ [c]), []. repeat split; [apply blank_nil|done| |done].
      rewrite Hp at 1. rewrite Hdrop. by rewrite <- !app_assoc.
    + exists [Str.strip (current_sentence st ++ [c])].
      repeat split; [done| |].
      * constructor; [|done]. rewrite Hcur, <- app_assoc.
        apply sentence_of_strip; [done..|].
        exists pre, (drop (pos st') p). rewrite Hp at 1.
        by rewrite Hdrop, <- !app_assoc.
      * simpl. rewrite Hcur', app_nil_r. simpl.
        rewrite !dewhite_app, dewhite_strip, Hdrop.
        change (c :: drop (pos st') p) with ([c] ++ drop (pos st') p).
        by rewrite !dewhite_app, app_assoc.
Qed.

Lemma advanced_refl p st : advanced p st st [].
Proof. split_and!; [by rewrite app_nil_r|constructor|done]. Qed.

Lemma advanced_trans p st1 st2 st3 toks1 toks2 :
  advanced p st1 st2 toks1 → advanced p st2 st3 toks2 →
  advanced p st1 st3 (toks1 ++ toks2).
Proof.
  intros (Hs1 & Hf1 & Hd1) (Hs2 & Hf2 & Hd2). repeat split.
  - by rewrite Hs2, Hs1, <- app_assoc.
  - by apply Forall_app.
  - rewrite <- Hd1, concat_app, <- app_assoc, !dewhite_app.
    rewrite !dewhite_app in Hd2. by rewrite Hd2.
Qed.

(** The loop ends within [length p - pos st] rounds, at the end of [p]. *)
Lemma scan_spec p fuel : ∀ st,
  length p ≤ fuel + pos st → reading p st →
  ∃ st' toks, scan ua A fuel p st = Some st'
    ∧ pos st' = length p ∧ reading p st' ∧ advanced p st st' toks.
Proof.
  induction fuel as [|fuel IH]; intros st Hfuel Hread.
  - assert (pos st = length p) as Heq.
    { destruct Hread as (_ & _ & _ & _ & _ & _ & ?). lia. }
    exists st, []. simpl. rewrite Heq, Nat.leb_refl.
    split_and!; [done|done|done|apply advanced_refl].
  - simpl. destruct (Nat.leb_spec (length p) (pos st)) as [Hge|Hlt].
    + assert (pos st = length p) as Heq.
      { destruct Hread as (_ & _ & _ & _ & _ & _ & ?). lia. }
      exists st, []. split_and!; [done|done|done|apply advanced_refl].
    + destruct (scan_step_outcome ua A p st Hlt) as (st1 & -> & Hstep).
      cbn [mbind option_bind].
      destruct (step_outcome_reading p st st1 Hread Hstep) as (Hread1 & toks1 & Hadv1).
      destruct (IH st1) as (st' & toks & -> & Hend & Hread' & Hadv); [|done|].
      { destruct Hstep as [[|? chunk]|]; [done|simpl in *; lia|lia]. }
      exists st', (toks1 ++ toks). split_and!; [done..|].
      by eapply advanced_trans.
Qed.

End LoopFacts.

(** ** The loop over the paragraphs *)

Section ParagraphFacts.
Variable ua : char → bool.
Variable A : gset pystr.

Lemma reading_start p carry sents : blank carry → reading p (ScanState 0 carry sents).
Proof.
  intros Hc. exists carry, [], []. simpl.
  split_and!; [done|by rewrite app_nil_r|done|lia].
Qed.

Lemma do_paragraph_spec ps carry sents p :
  blank carry → is_Some (last ps) →
  ∃ carry' ts,
    do_paragraph ua A ps (carry, sents) p
      = Some (carry', sents ++ ts ++ marker_after ps p)
    ∧ blank carry' ∧ sentences_of p ts.
Proof.
  intros Hcarry [lp Hlast]. unfold do_paragraph, marker_after.
  destruct (truthy (Str.strip p)) eqn:Hp; cbn [negb andb fst snd]; cycle 1.
  { exists carry, []. apply truthy_false, strip_nil_blank in Hp.
    split_and!; [by rewrite !app_nil_r|done|].
    split; [constructor|]. by rewrite (dewhite_blank p). }
  destruct (scan_spec ua A p (length p) (ScanState 0 carry sents))
    as (st' & toks & -> & Hend & Hread & Hsent & Htoks & Hdw);
    [simpl; lia|by apply reading_start|].
  cbn [mbind option_bind fst snd pos current_sentence sentences] in *.
  rewrite Hlast. cbn [mbind option_bind].
  destruct Hread as (w & pre & x & Hw & Hcur & Hpx & _).
  rewrite Hend, drop_all, app_nil_r in Hpx, Hdw.
  rewrite drop_0, (dewhite_app carry), (dewhite_blank carry), app_nil_l in Hdw by done.
  assert (bool_decide (Some p ≠ Some lp) = bool_decide (p ≠ lp)) as ->.
  { apply bool_decide_ext. naive_solver. }
  destruct (truthy (Str.strip (current_sentence st'))) eqn:Hrest.
  - exists [], (toks ++ [Str.strip (current_sentence st')]).
    assert (sentences_of p (toks ++ [Str.strip (current_sentence st')])).
    { split.
      - apply Forall_app. split; [done|]. constructor; [|done].
        split_and!; [apply strip_idem|by apply truthy_true|].
        rewrite Hcur, strip_blank_app by done.
        eapply occurs_in_trans; [apply strip_occurs_in|].
        exists pre, []. by rewrite app_nil_r.
      - rewrite concat_app, dewhite_app. simpl.
        rewrite app_nil_r, dewhite_strip, <- dewhite_app. done. }
    rewrite Hsent.
    destruct (bool_decide _);
      (split_and!; [by rewrite <- ?app_assoc|apply blank_nil|done]).
  - exists (current_sentence st'), toks.
    apply truthy_false, strip_nil_blank in Hrest.
    assert (sentences_of p toks).
    { split; [done|]. rewrite <- Hdw, dewhite_app.
      by rewrite (dewhite_blank (current_sentence st')), app_nil_r. }
    rewrite Hsent.
    destruct (bool_decide _);
      (split_and!; [by rewrite <- ?app_assoc, ?app_nil_r|done|done]).
Qed.

Lemma for_paragraphs_spec ps todo : ∀ carry sents,
  blank carry → is_Some (last ps) →
  ∃ carry' tss,
    for_paragraphs ua A ps (carry, sents) todo
      = Some (carry', sents ++ layout ps todo tss)
    ∧ Forall2 sentences_of todo tss.
Proof.
  induction todo as [|p todo IH]; intros carry sents Hcarry Hlast; simpl.
  - exists carry, []. split; [by rewrite app_nil_r|constructor].
  - destruct (do_paragraph_spec ps carry sents p Hcarry Hlast)
      as (carry1 & ts & -> & Hcarry1 & Hts).
    cbn [mbind option_bind].
    destruct (IH carry1 (sents ++ ts ++ marker_after ps p) Hcarry1 Hlast)
      as (carry' & tss & -> & Htss).
    exists carry', (ts :: tss). split; [|by constructor].
    unfold layout. simpl. by rewrite <- !app_assoc.
Qed.

(** The program returns, and what it returns has the layout of the
    paragraphs. *)
Lemma split_into_sentences_spec text :
  ∃ tss,
    split_into_sentences ua A text
      = Some (layout (Str.split text MARK) (Str.split text MARK) tss)
    ∧ Forall2 sentences_of (Str.split text MARK) tss.
Proof.
  unfold split_into_sentences.
  destruct (for_paragraphs_spec (Str.split text MARK) (Str.split text MARK) [] [])
    as (carry' & tss & -> & Htss); [apply blank_nil|apply split_go_last|].
  by exists tss.
Qed.

End ParagraphFacts.

(** ** Tokens and markers *)

Section TokenFacts.

Lemma sentence_of_free p t :
  ¬ occurs_in MARK p → sentence_of p t → ¬ occurs_in MARK t.
Proof.
  intros Hp (_ & _ & Hocc) Hm. apply Hp. by eapply occurs_in_trans.
Qed.

Lemma sentence_of_not_mark p t :
  ¬ occurs_in MARK p → sentence_of p t → t ≠ MARK.
Proof.
  intros Hp Ht ->. apply (sentence_of_free _ _ Hp Ht), occurs_in_refl.
Qed.

Lemma marker_after_cases ps p : marker_after ps p = [MARK] ∨ marker_after ps p = [].
Proof. unfold marker_after. destruct (_ && _); auto. Qed.

Lemma layout_cons ps p todo ts tss :
  layout ps (p :: todo) (ts :: tss)
  = ts ++ marker_after ps p ++ layout ps todo tss.
Proof. unfold layout. simpl. by rewrite <- app_assoc. Qed.

Lemma layout_elem ps todo tss t :
  Forall2 sentences_of todo tss → t ∈ layout ps todo tss →
  t = MARK ∨ ∃ p, p ∈ todo ∧ sentence_of p t.
Proof.
  induction 1 as [|p ts todo tss [Hts _] _ IH]; [by intros ?%elem_of_nil|].
  rewrite layout_cons, !elem_of_app. intros [Ht|[Ht|Ht]].
  - right. exists p. split; [apply elem_of_cons; by left|].
    rewrite Forall_forall in Hts. auto.
  - left. destruct (marker_after_cases ps p) as [Hm|Hm]; rewrite Hm in Ht.
    + by apply list_elem_of_singleton in Ht.
    + by apply elem_of_nil in Ht.
  - destruct (IH Ht) as [?|(q & ? & ?)]; [by left|].
    right. exists q. split; [apply elem_of_cons; by right|done].
Qed.

Lemma non_marks_app ts1 ts2 : non_marks (ts1 ++ ts2) = non_marks ts1 ++ non_marks ts2.
Proof. apply filter_app. Qed.

Lemma non_marks_sentences p ts :
  ¬ occurs_in MARK p → Forall (sentence_of p) ts → non_marks ts = ts.
Proof.
  intros Hp. unfold non_marks. induction 1 as [|t ts Ht _ IH]; [done|].
  rewrite filter_cons_True by by eapply sentence_of_not_mark.
  by rewrite IH.
Qed.

Lemma non_marks_marker ps p : non_marks (marker_after ps p) = [].
Proof. destruct (marker_after_cases ps p) as [->| ->]; [|done].
  unfold non_marks. by rewrite filter_cons_False by naive_solver.
Qed.

Lemma non_marks_layout ps todo tss :
  Forall (λ p, ¬ occurs_in MARK p) todo → Forall2 sentences_of todo tss →
  non_marks (layout ps todo tss) = concat tss.
Proof.
  intros Hfree Htss. induction Htss as [|p ts todo tss [Hts _] _ IH]; [done|].
  apply Forall_cons in Hfree as [Hp Hfree].
  rewrite layout_cons, !non_marks_app, non_marks_marker, IH by done.
  by rewrite (non_marks_sentences p).
Qed.

Lemma dewhite_concat todo tss :
  Forall2 sentences_of todo tss →
  dewhite (concat (concat tss)) = dewhite (concat todo).
Proof.
  induction 1 as [|p ts todo tss [_ Hts] _ IH]; [done|].
  simpl. by rewrite concat_app, !dewhite_app, Hts, IH.
Qed.

End TokenFacts.

(** * The tokens of every text *)

Section TokenProperties.
Variable ua : char → bool.
Variable A : gset pystr.

(** What the program returns on any text, normalized or not: all the
    facts the theorems below draw on. *)
Lemma split_into_sentences_tokens text :
  ∃ tss,
    split_into_sentences ua A text
      = Some (layout (Str.split text MARK) (Str.split text MARK) tss)
    ∧ Forall2 sentences_of (Str.split text MARK) tss
    ∧ Forall (λ p, ¬ occurs_in MARK p) (Str.split text MARK).
Proof.
  destruct (split_into_sentences_spec ua A text) as (tss & Heq & Htss).
  exists tss. split_and!; [done..|]. apply split_free, MARK_nonempty.
Qed.

(** C5. For every text and every abbreviation set the program returns a
    list of tokens, and every token, sentence or paragraph marker, is
    non-empty after trimming. *)
Theorem C5_tokens_nonempty_when_trimmed text :
  ∃ tokens, split_into_sentences ua A text = Some tokens
    ∧ Forall (λ t, Str.strip t ≠ []) tokens.
Proof.
  destruct (split_into_sentences_tokens text) as (tss & -> & Htss & _).
  eexists. split; [done|]. apply Forall_forall. intros t Ht.
  destruct (layout_elem _ _ _ _ Htss Ht) as [->|(p & _ & Hstrip & Hne & _)].
  - done.
  - by rewrite Hstrip.
Qed.

(** C10. No sentence token contains the paragraph marker: every token the
    program returns is the marker itself or has no occurrence of it. *)
Theorem C10_tokens_marker_or_marker_free text :
  ∃ tokens, split_into_sentences ua A text = Some tokens
    ∧ Forall (λ t, t = MARK ∨ ¬ occurs_in MARK t) tokens.
Proof.
  destruct (split_into_sentences_tokens text) as (tss & -> & Htss & Hfree).
  eexists. split; [done|]. apply Forall_forall. intros t Ht.
  destruct (layout_elem _ _ _ _ Htss Ht) as [->|(p & Hp & Hsent)]; [by left|].
  right. rewrite Forall_forall in Hfree.
  eapply sentence_of_free; [|done]. by apply Hfree.
Qed.

(** C9. Segmentation loses no content: the sentence tokens of the
    normalized text, joined and with the whitespace deleted, are the
    normalized text with the markers and the whitespace deleted.  Each
    character of the normalized text other than whitespace and markers is
    in one sentence token, once, in the order of the text. *)
Theorem C9_segmentation_keeps_content raw :
  ∃ tokens, split_into_sentences ua A (preprocess_text raw) = Some tokens
    ∧ dewhite (concat (non_marks tokens))
      = dewhite (Str.replace (preprocess_text raw) MARK []).
Proof.
  destruct (split_into_sentences_tokens (preprocess_text raw))
    as (tss & -> & Htss & Hfree).
  eexists. split; [done|].
  rewrite non_marks_layout, (dewhite_concat _ _ Htss) by done.
  by rewrite concat_split.
Qed.

(** C8. Normalization followed by segmentation returns a list of tokens
    for every input and every abbreviation set, with no error; the empty
    input is normalized to the empty string and has no token. *)
Theorem C8_segmentation_total :
  (∀ raw, ∃ tokens, split_into_sentences ua A (preprocess_text raw) = Some tokens)
  ∧ preprocess_text [] = []
  ∧ split_into_sentences ua A (preprocess_text []) = Some [].
Proof.
  split_and!; [|done..].
  intros raw.
  destruct (split_into_sentences_tokens (preprocess_text raw)) as (tss & -> & _).
  eauto.
Qed.

End TokenProperties.

(** ** The normalizer *)

Section NormalizerFacts.
Import Re.

Lemma match_at_newline_first r s b :
  (∀ c s', s = c :: s' → c ≠ Chr.NL) → match_at (Cat (Lit Chr.NL) r) s b = None.
Proof.
  intros Hs. unfold match_at. cbn [run Lit].
  destruct s as [|c s']; [done|].
  destruct (N.eqb_spec Chr.NL c) as [<-|]; [|done].
  by destruct (Hs Chr.NL s').
Qed.

Lemma sub_from_newline_free r repl s : ∀ b,
  Chr.NL ∉ s → sub_from (Cat (Lit Chr.NL) r) repl s 0 b = s.
Proof.
  induction s as [|c s IH]; intros b Hnl; cbn [sub_from].
  - by rewrite match_at_newline_first.
  - rewrite match_at_newline_first.
    + rewrite IH; [done|]. intros ?. apply Hnl. by right.
    + intros ? ? [= <- _] ->. apply Hnl. by left.
Qed.

Lemma iterate_space n : ∀ s b,
  length s ≤ n →
  iterate (run Space) n s b Some = Some (Str.lstrip_by Chr.isspace s).
Proof.
  induction n as [|n IH]; intros s b Hlen.
  - destruct s; [done|simpl in Hlen; lia].
  - destruct s as [|c s]; [done|]. cbn [iterate]. unfold Space at 1. cbn [run].
    destruct (Chr.isspace c) eqn:Hc; cbn [Str.lstrip_by]; rewrite Hc; [|done].
    destruct (Nat.ltb_spec (length s) (length (c :: s))); [|simpl in *; lia].
    rewrite IH; [done|]. simpl in Hlen. lia.
Qed.

Lemma match_at_spaces c s b :
  match_at Pat.SPACES (c :: s) b
  = if Chr.isspace c
    then Some (S (length s - length (Str.lstrip_by Chr.isspace s)))
    else None.
Proof.
  unfold match_at, Pat.SPACES. simpl.
  destruct (Chr.isspace c); [|done].
  rewrite iterate_space by done. simpl.
  destruct (lstrip_by_split Chr.isspace s) as (a & Ha & _).
  apply (f_equal length) in Ha. rewrite length_app in Ha.
  f_equal. lia.
Qed.

Lemma sub_from_skip r repl n : ∀ s,
  n ≤ length s → sub_from r repl s n false = sub_from r repl (drop n s) 0 false.
Proof.
  induction n as [|n IH]; intros s Hn; [done|].
  destruct s as [|c s]; simpl in *; [lia|]. apply IH. lia.
Qed.

Lemma drop_to_lstrip s :
  drop (length s - length (Str.lstrip_by Chr.isspace s)) s
  = Str.lstrip_by Chr.isspace s.
Proof.
  destruct (lstrip_by_split Chr.isspace s) as (a & Ha & _).
  rewrite Ha at 1 3. rewrite length_app.
  replace (length a + _ - _) with (length a) by lia.
  by rewrite drop_app_length.
Qed.

(** [re.sub(r'\s+', ' ', s)], one character at a time *)
Lemma squeeze_cons c s b :
  sub_from Pat.SPACES [Chr.SP] (c :: s) 0 b
  = if Chr.isspace c
    then Chr.SP :: sub_from Pat.SPACES [Chr.SP] (Str.lstrip_by Chr.isspace s) 0 false
    else c :: sub_from Pat.SPACES [Chr.SP] s 0 false.
Proof.
  cbn [sub_from]. rewrite match_at_spaces.
  destruct (Chr.isspace c); [|done].
  rewrite sub_from_skip by lia. by rewrite drop_to_lstrip.
Qed.

Lemma squeezed_sub n : ∀ s b,
  length s ≤ n → squeezed (sub_from Pat.SPACES [Chr.SP] s 0 b).
Proof.
  induction n as [|n IH]; intros s b Hlen.
  - destruct s; [done|simpl in Hlen; lia].
  - destruct s as [|c s]; [done|]. rewrite squeeze_cons.
    simpl in Hlen.
    destruct (Chr.isspace c) eqn:Hc.
    + destruct (lstrip_by_split Chr.isspace s) as (a & Ha & _).
      apply (f_equal length) in Ha. rewrite length_app in Ha.
      split; [|apply IH; lia]. intros _. split; [done|].
      destruct (Str.lstrip_by Chr.isspace s) as [|d r] eqn:Hl; [done|].
      rewrite squeeze_cons.
      pose proof (lstrip_by_head _ _ _ _ Hl) as Hd. by rewrite Hd.
    + split; [|apply IH; lia]. congruence.
Qed.

Lemma squeezed_fixed s : ∀ b,
  squeezed s → sub_from Pat.SPACES [Chr.SP] s 0 b = s.
Proof.
  induction s as [|c s IH]; intros b Hs; [done|].
  rewrite squeeze_cons. destruct Hs as [Hc Hs].
  destruct (Chr.isspace c) eqn:Hsp.
  - destruct (Hc eq_refl) as [-> Hhead].
    rewrite lstrip_by_id, IH; [done..|].
    intros d r ->. done.
  - by rewrite IH.
Qed.

Lemma squeezed_no_newline s : squeezed s → Chr.NL ∉ s.
Proof.
  induction s as [|c s IH]; intros Hs Hin; [by apply elem_of_nil in Hin|].
  destruct Hs as [Hc Hs]. apply elem_of_cons in Hin as [<-|Hin]; [|by apply IH].
  by destruct (Hc eq_refl).
Qed.

Lemma squeezed_lstrip s : squeezed s → squeezed (Str.lstrip_by Chr.isspace s).
Proof.
  induction s as [|c s IH]; [done|]. intros Hs. simpl.
  destruct (Chr.isspace c); [|done]. apply IH, Hs.
Qed.

Lemma squeezed_rstrip s : squeezed s → squeezed (Str.rstrip_by Chr.isspace s).
Proof.
  induction s as [|c s IH]; [done|]. intros [Hc Hs]. simpl.
  destruct (Str.rstrip_by Chr.isspace s) as [|d r] eqn:Hr.
  - destruct (Chr.isspace c) eqn:Hsp; [done|]. split; [congruence|done].
  - apply rstrip_by_head in Hr as (s' & ->).
    split; [done|]. by apply IH.
Qed.

Lemma squeezed_strip s : squeezed s → squeezed (Str.strip s).
Proof. intros Hs. by apply squeezed_rstrip, squeezed_lstrip. Qed.

Lemma preprocess_text_squeezed t : squeezed (preprocess_text t).
Proof.
  unfold preprocess_text. apply squeezed_strip.
  unfold re_sub at 1. eapply squeezed_sub. reflexivity.
Qed.

(** C6. The normalizer is idempotent: normalizing a normalized text
    returns it unchanged. *)
Theorem C6_preprocess_text_idempotent t :
  preprocess_text (preprocess_text t) = preprocess_text t.
Proof.
  pose proof (preprocess_text_squeezed t) as Hsq.
  unfold preprocess_text at 1. unfold re_sub, Pat.BLANK_LINE, Pat.LONE_NEWLINE.
  cbn [seq].
  pose proof (squeezed_no_newline _ Hsq) as Hnl.
  rewrite (sub_from_newline_free _ _ (preprocess_text t)) by done.
  rewrite (sub_from_newline_free _ _ (preprocess_text t)) by done.
  rewrite squeezed_fixed by done.
  unfold preprocess_text. apply strip_idem.
Qed.

End NormalizerFacts.

(** ** The guards of a round *)

Section GuardFacts.
Variable ua : char → bool.
Variable A : gset pystr.

(** A round that meets an ellipsis closes no sentence, whatever follows
    the dots: the text looked at for a capital letter is taken before the
    dots are read, and begins with two of them. *)
Lemma ellipsis_never_closes p st :
  p !! pos st = Some Chr.DOT →
  pos st + 2 < length p →
  Str.slice p (pos st + 1) (pos st + 3) = [Chr.DOT; Chr.DOT] →
  ∃ st', scan_step ua A p st = Some st' ∧ sentences st' = sentences st.
Proof.
  intros Hc Hlen Hdots.
  destruct (scan_step_outcome ua A p st) as (st' & Hstep & Hout); [lia|].
  exists st'. split; [done|].
  destruct Hout as [| c Hdrop _ _ _ _ _ _ Hno _ _]; [done|].
  rewrite (drop_S _ _ _ Hc) in Hdrop. injection Hdrop as <- _.
  replace (S (pos st)) with (pos st + 1) in Hno by lia.
  destruct Hno as [?|[?|?]]; [done|done|lia].
Qed.

(** C7. A terminator read while the sentence so far, the terminator
    included, has an odd number of double quotes or more opening than
    closing parentheses closes no sentence: the round keeps what it read
    and the scan goes on.  The parenthetical example is one token. *)
Theorem C7_open_quote_or_parenthesis_suppresses :
  (∀ p st c,
     p !! pos st = Some c →
     terminator c = true →
     Str.count Chr.QUOTE (current_sentence st ++ [c]) mod 2 ≠ 0
     ∨ Str.count Chr.RPAREN (current_sentence st ++ [c])
       < Str.count Chr.LPAREN (current_sentence st ++ [c]) →
     ∃ st', scan_step ua A p st = Some st'
       ∧ sentences st' = sentences st
       ∧ pos st < pos st'
       ∧ current_sentence st ++ [c] `prefix_of` current_sentence st')
  ∧ split_into_sentences ua A
      (preprocess_text
         (py "This is a sentence with (a parenthetical. Still inside) and done."))
    = Some [py "This is a sentence with (a parenthetical. Still inside) and done."].
Proof.
  split; [|by vm_compute].
  intros p st c Hc Hterm Hopen.
  destruct (scan_step_outcome ua A p st) as (st' & Hstep & Hout).
  { by apply lookup_lt_Some in Hc. }
  exists st'. split; [done|].
  pose proof (drop_S _ _ _ Hc) as Hdrop.
  destruct Hout as [chunk Hchunk Hpos Hne _ Hcur Hsent
                   |c' Hdrop' _ _ _ Hq Hp _ _ _ _].
  - rewrite Hdrop in Hchunk. destruct chunk as [|d chunk]; [done|].
    injection Hchunk as <- _. split_and!; [done|simpl in Hpos; lia|].
    rewrite Hcur. exists chunk. by rewrite <- app_assoc.
  - rewrite Hdrop in Hdrop'. injection Hdrop' as <- _. lia.
Qed.

End GuardFacts.

(** A round at the full stop of ["(a. b)"], inside the parenthesis. *)
Lemma C7_open_quote_or_parenthesis_suppresses_witness :
  py "(a. b)" !! 2 = Some Chr.DOT
  ∧ terminator Chr.DOT = true
  ∧ Str.count Chr.RPAREN (py "(a" ++ [Chr.DOT]) < Str.count Chr.LPAREN (py "(a" ++ [Chr.DOT])
  ∧ ∃ st', scan_step (λ _, false) DEFAULT_ABBREVIATIONS (py "(a. b)")
             (ScanState 2 (py "(a") []) = Some st'
      ∧ sentences st' = []
      ∧ 2 < pos st'
      ∧ py "(a" ++ [Chr.DOT] `prefix_of` current_sentence st'.
Proof.
  split_and!; [reflexivity|reflexivity|vm_compute; lia|].
  apply (proj1 (C7_open_quote_or_parenthesis_suppresses (λ _, false)
                  DEFAULT_ABBREVIATIONS) (py "(a. b)") (ScanState 2 (py "(a") [])
               Chr.DOT); [reflexivity|reflexivity|right; vm_compute; lia].
Defined.

(** ** The program on the examples of the specification *)

Section Examples.
Variable ua : char → bool.

(** C1. On ["He left... Then it happened."] the program returns one
    token: the ellipsis before the capital letter closes no sentence. *)
Theorem C1_ellipsis_before_capital_is_one_token :
  split_into_sentences ua DEFAULT_ABBREVIATIONS
    (preprocess_text (py "He left... Then it happened."))
  = Some [py "He left... Then it happened."].
Proof. by vm_compute. Qed.

(** C2. On the dialogue example, [Stop,] in double quotes, then
    [she said.], then [Now.] in double quotes, the program returns one
    token: [said.] is taken for an abbreviation. *)
Theorem C2_dialogue_is_one_token :
  split_into_sentences ua DEFAULT_ABBREVIATIONS
    (preprocess_text
       ([Chr.QUOTE] ++ py "Stop," ++ [Chr.QUOTE] ++ py " she said. "
        ++ [Chr.QUOTE] ++ py "Now." ++ [Chr.QUOTE]))
  = Some [[Chr.QUOTE] ++ py "Stop," ++ [Chr.QUOTE] ++ py " she said. "
          ++ [Chr.QUOTE] ++ py "Now." ++ [Chr.QUOTE]].
Proof. by vm_compute. Qed.

(** C3. The first abbreviation test accepts ordinary words that end in
    one full stop, [home.] and [sat.] as it accepts [Ph.D.] and [U.S.]:
    its dots stand for any character.  So these words are taken for
    abbreviations whatever the abbreviation set, and
    ["He went home. She sat."] is one token. *)
Theorem C3_ordinary_word_matches_multi_part (A : gset pystr) :
  Re.re_match Pat.MULTI_PART (py "home.") = true
  ∧ Re.re_match Pat.MULTI_PART (py "sat.") = true
  ∧ Re.re_match Pat.MULTI_PART (py "Ph.D.") = true
  ∧ Re.re_match Pat.MULTI_PART (py "U.S.") = true
  ∧ is_abbreviation ua A (py "He went home. She sat.") 12 (py "He went home.")
    = Some true
  ∧ split_into_sentences ua A (preprocess_text (py "He went home. She sat."))
    = Some [py "He went home. She sat."].
Proof. split_and!; by vm_compute. Qed.

End Examples.

(** ** Paragraph markers *)

Section MarkerFacts.
Variable ua : char → bool.
Variable A : gset pystr.





End MarkerFacts.


(** ** The other examples of the specification *)

Section SpecExamples.
Variable ua : char → bool.

Example abbreviation_does_not_split :
  split_into_sentences ua DEFAULT_ABBREVIATIONS
    (preprocess_text (py "Dr. Smith went home."))
  = Some [py "Dr. Smith went home."].
Proof. by vm_compute. Qed.

Example closing_ellipsis_is_one_sentence :
  split_into_sentences ua DEFAULT_ABBREVIATIONS (preprocess_text (py "He paused..."))
  = Some [py "He paused..."].
Proof. by vm_compute. Qed.

Example blank_line_gives_marker :
  split_into_sentences ua DEFAULT_ABBREVIATIONS
    (preprocess_text (py "Para one." ++ [Chr.NL; Chr.NL] ++ py "Para two."))
  = Some [py "Para one."; MARK; py "Para two."].
Proof. by vm_compute. Qed.

(** Short words are not caught by the multi-part pattern, and the scanner
    does split after them. *)
Example short_words_split :
  split_into_sentences ua DEFAULT_ABBREVIATIONS
    (preprocess_text (py "Yes! No? He is at it. Dr. Smith is in."))
  = Some [py "Yes!"; py "No?"; py "He is at it."; py "Dr. Smith is in."].
Proof. by vm_compute. Qed.

(** The last-paragraph test compares strings: a paragraph equal to the
    last one gets no marker. *)
Example paragraph_equal_to_last_gets_no_marker :
  split_into_sentences ua DEFAULT_ABBREVIATIONS (py "A" ++ MARK ++ py "B" ++ MARK ++ py "A")
  = Some [py "A"; py "B"; MARK; py "A"].
Proof. by vm_compute. Qed.

End SpecExamples.

(** * Further properties of the program *)

(** ** The shape of the normalized text and of the tokens *)

Section SubstringFacts.

Lemma squeezed_single_spaced s : squeezed s → single_spaced s.
Proof.
  intros Hs. split.
  - induction s as [|x s IH]; intros c Hin Hc; [by apply elem_of_nil in Hin|].
    destruct Hs as [Hx Hs]. apply elem_of_cons in Hin as [->|Hin]; [|by apply IH].
    by destruct (Hx Hc).
  - intros a. revert s Hs. induction a as [|x a IH]; intros s Hs c d b -> Hc.
    + destruct Hs as [Hx _]. by destruct (Hx Hc).
    + destruct Hs as [_ Hs]. by eapply IH.
Qed.

Lemma squeezed_app_r a s : squeezed (a ++ s) → squeezed s.
Proof. induction a as [|x a IH]; [done|]. intros [_ Hs]. by apply IH. Qed.

Lemma squeezed_app_l s b : squeezed (s ++ b) → squeezed s.
Proof.
  induction s as [|x s IH]; [done|]. simpl. intros [Hx Hs].
  split; [|by apply IH]. intros Hc. destruct (Hx Hc) as [-> Hnext].
  split; [done|]. by destruct s.
Qed.

Lemma squeezed_occurs_in t s : occurs_in t s → squeezed s → squeezed t.
Proof.
  intros (a & b & ->) Hs. by eapply squeezed_app_l, squeezed_app_r.
Qed.

(** Either [sep] does not split [s], or it occurs in it. *)
Lemma split_go_whole sep s : ∀ piece,
  Str.split_go sep s 0 piece = [piece ++ s] ∨ occurs_in sep s.
Proof.
  induction s as [|c s IH]; intros piece; simpl.
  - left. by rewrite app_nil_r.
  - destruct (Str.starts_with sep (c :: s)) eqn:Hsw.
    + right. apply starts_with_spec in Hsw as (r & ->). by exists [], r.
    + destruct (IH (piece ++ [c])) as [->|(a & b & ->)].
      * left. by rewrite <- app_assoc.
      * right. by exists (c :: a), b.
Qed.

(** The pieces of a split are substrings of the text. *)
Lemma split_go_occurs sep s : ∀ skip piece pre whole,
  whole = pre ++ piece ++ s → (0 < skip → piece = []) →
  Forall (λ q, occurs_in q whole) (Str.split_go sep s skip piece).
Proof.
  induction s as [|c s IH]; intros skip piece pre whole Hwhole Hskip; simpl.
  - constructor; [|done]. by exists pre, [].
  - destruct skip as [|n].
    + destruct (Str.starts_with sep (c :: s)).
      * constructor; [by exists pre, (c :: s)|].
        apply (IH _ _ (pre ++ piece ++ [c])); [|done].
        by rewrite Hwhole, <- !app_assoc.
      * apply (IH _ _ pre); [|lia]. by rewrite Hwhole, <- !app_assoc.
    + rewrite Hskip in * by lia. apply (IH _ _ (pre ++ [c])); [|done].
      by rewrite Hwhole, <- !app_assoc.
Qed.

Lemma split_occurs s sep : Forall (λ q, occurs_in q s) (Str.split s sep).
Proof. by apply (split_go_occurs sep s 0 [] []). Qed.

End SubstringFacts.

Section SubstringTheorems.
Variable ua : char → bool.
Variable A : gset pystr.

(** A marker among the tokens comes from a marker in the text. *)
Lemma marker_after_occurs text p :
  p ∈ Str.split text MARK →
  marker_after (Str.split text MARK) p = [MARK] → occurs_in MARK text.
Proof.
  unfold marker_after, Str.split.
  destruct (split_go_whole MARK text []) as [->|?]; [|done].
  intros ->%list_elem_of_singleton. simpl.
  rewrite bool_decide_eq_false_2, andb_false_r by naive_solver. done.
Qed.

Lemma layout_elem_source ps todo tss t :
  Forall2 sentences_of todo tss → t ∈ layout ps todo tss →
  ∃ p, p ∈ todo ∧ ((t = MARK ∧ marker_after ps p = [MARK]) ∨ sentence_of p t).
Proof.
  induction 1 as [|p ts todo tss [Hts _] _ IH]; [by intros ?%elem_of_nil|].
  rewrite layout_cons, !elem_of_app. intros [Ht|[Ht|Ht]].
  - exists p. split; [apply elem_of_cons; by left|].
    right. rewrite Forall_forall in Hts. auto.
  - exists p. split; [apply elem_of_cons; by left|]. left.
    destruct (marker_after_cases ps p) as [Hm|Hm]; rewrite Hm in Ht.
    + by apply list_elem_of_singleton in Ht.
    + by apply elem_of_nil in Ht.
  - destruct (IH Ht) as (q & ? & ?). exists q. split; [apply elem_of_cons; by right|done].
Qed.

(** Every token is a substring of the text, sentence or marker. *)
Lemma token_occurs_in_text text tss t :
  Forall2 sentences_of (Str.split text MARK) tss →
  t ∈ layout (Str.split text MARK) (Str.split text MARK) tss →
  occurs_in t text ∧ Str.strip t = t.
Proof.
  intros Htss Ht.
  destruct (layout_elem_source _ _ _ _ Htss Ht) as (p & Hp & [[-> Hm]|Hsent]).
  - split; [by eapply marker_after_occurs|done].
  - destruct Hsent as (Hstrip & _ & Hocc). split; [|done].
    eapply occurs_in_trans; [done|].
    pose proof (split_occurs text MARK) as Hall.
    rewrite Forall_forall in Hall. by apply Hall.
Qed.

(** X1. The normalized text has no whitespace at its ends and none inside
    but single spaces: no newline, no tab, no two spaces in a row. *)
Theorem X1_preprocess_text_single_spaced raw :
  Str.strip (preprocess_text raw) = preprocess_text raw
  ∧ single_spaced (preprocess_text raw).
Proof.
  split.
  - unfold preprocess_text. apply strip_idem.
  - apply squeezed_single_spaced, preprocess_text_squeezed.
Qed.

(** X2. Every token the segmenter returns, sentence or marker, is a
    substring of the text it was given: the characters of a sentence are
    copied as they are, inner whitespace included, and a marker is
    returned only for a text that has one. *)
Theorem X2_tokens_are_substrings text :
  ∃ tokens, split_into_sentences ua A text = Some tokens
    ∧ Forall (λ t, occurs_in t text) tokens.
Proof.
  destruct (split_into_sentences_spec ua A text) as (tss & -> & Htss).
  eexists. split; [done|]. apply Forall_forall. intros t Ht.
  by destruct (token_occurs_in_text text tss t).
Qed.

(** X3. The tokens of a source text, normalized and then segmented, are
    trimmed and have no whitespace but single spaces: no token has a
    newline, a carriage return or a tab. *)
Theorem X3_process_text_tokens_single_spaced raw :
  ∃ tokens, process_text ua A raw = Some tokens
    ∧ Forall (λ t, Str.strip t = t ∧ single_spaced t) tokens.
Proof.
  unfold process_text.
  destruct (split_into_sentences_spec ua A (preprocess_text raw)) as (tss & -> & Htss).
  eexists. split; [done|]. apply Forall_forall. intros t Ht.
  destruct (token_occurs_in_text _ tss t Htss Ht) as [Hocc Hstrip].
  split; [done|]. apply squeezed_single_spaced.
  eapply squeezed_occurs_in; [done|]. apply preprocess_text_squeezed.
Qed.

End SubstringTheorems.

(** ** Where the markers are *)

Section MarkerPlaceFacts.
Variable ua : char → bool.
Variable A : gset pystr.

Lemma dewhite_nil_blank s : dewhite s = [] → blank s.
Proof.
  unfold dewhite, blank. induction s as [|c s IH]; [constructor|].
  destruct (Chr.isspace c) eqn:Hc.
  - rewrite filter_cons_False by congruence. constructor; auto.
  - by rewrite filter_cons_True.
Qed.

Lemma blank_strip_nil s : blank s → Str.strip s = [].
Proof.
  intros Hs. unfold Str.strip.
  rewrite <- (app_nil_r s), lstrip_by_app by done. done.
Qed.

Lemma sentences_of_nonblank p ts :
  sentences_of p ts → truthy (Str.strip p) = true → ts ≠ [].
Proof.
  intros [_ Hdw] Hp ->. simpl in Hdw. symmetry in Hdw.
  apply dewhite_nil_blank, blank_strip_nil in Hdw. by rewrite Hdw in Hp.
Qed.

Lemma markers_follow_nil : markers_follow_sentences [].
Proof. intros [|??] ? ?; done. Qed.

Lemma markers_follow_cons t l :
  t ≠ MARK → markers_follow_sentences l → markers_follow_sentences (t :: l).
Proof.
  intros Ht Hl [|t' l1] l2 Heq; simplify_eq/=.
  destruct (Hl l1 l2 eq_refl) as (l0 & t0 & -> & ?). by exists (t' :: l0), t0.
Qed.

Lemma markers_follow_mark t l :
  t ≠ MARK → markers_follow_sentences l → markers_follow_sentences (t :: MARK :: l).
Proof.
  intros Ht Hl [|t' [|m l1]] l2 Heq; simplify_eq/=.
  - by exists [], t'.
  - destruct (Hl l1 l2 eq_refl) as (l0 & t0 & -> & ?).
    by exists (t' :: MARK :: l0), t0.
Qed.

Lemma markers_follow_group ts m l :
  Forall (λ t, t ≠ MARK) ts → (m = [] ∨ m = [MARK] ∧ ts ≠ []) →
  markers_follow_sentences l → markers_follow_sentences (ts ++ m ++ l).
Proof.
  intros Hts Hm Hl. induction Hts as [|t ts Ht Hts IH].
  - destruct Hm as [->|[_ ?]]; done.
  - destruct ts as [|t' ts].
    + destruct Hm as [->|[-> _]]; simpl.
      * by apply markers_follow_cons.
      * by apply markers_follow_mark.
    + simpl. apply markers_follow_cons; [done|]. apply IH.
      destruct Hm as [->|[-> _]]; [by left|by right].
Qed.

Lemma markers_follow_layout ps todo tss :
  Forall (λ p, ¬ occurs_in MARK p) todo → Forall2 sentences_of todo tss →
  markers_follow_sentences (layout ps todo tss).
Proof.
  intros Hfree Htss. induction Htss as [|p ts todo tss Hts _ IH].
  - apply markers_follow_nil.
  - apply Forall_cons in Hfree as [Hp Hfree]. rewrite layout_cons.
    apply markers_follow_group; [| |by apply IH].
    + destruct Hts as [Hts _]. eapply Forall_impl; [done|].
      intros t. by apply sentence_of_not_mark.
    + unfold marker_after. destruct (truthy (Str.strip p)) eqn:Hblank; [|by left].
      destruct (bool_decide _); [|by left]. right. split; [done|].
      by eapply sentences_of_nonblank.
Qed.

(** X4. Every paragraph marker among the tokens directly follows a sentence
    token: the tokens never begin with a marker and never have two markers
    in a row. *)
Theorem X4_markers_follow_sentences text :
  ∃ tokens, split_into_sentences ua A text = Some tokens
    ∧ markers_follow_sentences tokens.
Proof.
  destruct (split_into_sentences_spec ua A text) as (tss & -> & Htss).
  eexists. split; [done|].
  apply markers_follow_layout; [|done]. apply split_free, MARK_nonempty.
Qed.

End MarkerPlaceFacts.

(** ** Where a match ends *)

Section MatcherFacts.
Import Re.

Lemma iterate_suffix body : ends_on_suffix body → ∀ n, ends_on_suffix (iterate body n).
Proof.
  intros Hbody n. induction n as [|n IH]; intros s b k e; simpl.
  - intros Hk. by exists s.
  - destruct (body s b _) as [e'|] eqn:Hb.
    + intros [= ->]. apply Hbody in Hb as (s1 & Hs1 & Hk1).
      destruct (length s1 <? length s); [|done].
      apply IH in Hk1 as (s2 & Hs2 & Hk2). exists s2. split; [|done].
      by etrans.
    + intros Hk. by exists s.
Qed.

Lemma run_suffix r : ends_on_suffix (run r).
Proof.
  induction r as [| |p|p|r1 IH1 r2 IH2|r1 IH1|r1 IH1]; intros s b k e; simpl.
  - destruct b; [|done]. intros Hk. by exists s.
  - destruct s as [|c [|??]]; [intros Hk; by exists []| |done].
    destruct (c =? Chr.NL)%N; [|done]. intros Hk. by exists [c].
  - destruct s as [|c s]; [done|]. destruct (p c); [|done].
    intros Hk. exists s. split; [|done]. by apply suffix_cons_r.
  - destruct s as [|c s]; [intros Hk; by exists []|].
    destruct (p c); [done|]. intros Hk. by exists (c :: s).
  - intros (s1 & Hs1 & (s2 & Hs2 & Hk)%IH2)%IH1. exists s2. split; [|done]. by etrans.
  - by apply iterate_suffix.
  - intros (s1 & Hs1 & (s2 & Hs2 & Hk)%iterate_suffix)%IH1; [|done].
    exists s2. split; [|done]. by etrans.
Qed.

(** A match spans at most the subject. *)
Lemma match_at_le r s b n : match_at r s b = Some n → n ≤ length s.
Proof.
  unfold match_at. destruct (run r s b Some) as [rest|]; [|done].
  intros [= <-]. lia.
Qed.

Lemma match_at_split r s b n :
  match_at r s b = Some n → run r s b Some = Some (drop n s).
Proof.
  unfold match_at. destruct (run r s b Some) as [rest|] eqn:Hrun; [|done].
  intros [= <-]. apply run_suffix in Hrun as (s' & [a ->] & [= ->]).
  rewrite length_app. replace (length a + length rest - length rest) with (length a) by lia.
  by rewrite drop_app_length.
Qed.

End MatcherFacts.

(** ** What the normalizer keeps *)

Section NormalizerContent.
Import Re.

Lemma split_from_nonempty r s : ∀ skip b piece, split_from r s skip b piece ≠ [].
Proof.
  induction s as [|c s IH]; intros skip b piece; simpl; [done|].
  destruct skip; [|apply IH]. destruct (match_at r (c :: s) b) as [[|n]|]; try apply IH.
  done.
Qed.

Lemma join_cons sep x l : l ≠ [] → join sep (x :: l) = x ++ sep ++ join sep l.
Proof. by destruct l. Qed.

(** Replacing the matches is joining the pieces between them. *)
Lemma sub_from_join r repl :
  (∀ s b, match_at r s b ≠ Some 0) →
  ∀ s skip b piece,
    piece ++ sub_from r repl s skip b = join repl (split_from r s skip b piece).
Proof.
  intros Hr. induction s as [|c s IH]; intros skip b piece; cbn [sub_from split_from].
  - assert (match_at r [] b = None) as ->.
    { destruct (match_at r [] b) as [n|] eqn:Hm; [|done].
      apply match_at_le in Hm as Hn. simpl in Hn. destruct n; [|lia]. by apply Hr in Hm. }
    destruct skip; simpl; by rewrite app_nil_r.
  - destruct skip as [|k]; [|apply IH].
    destruct (match_at r (c :: s) b) as [[|n]|] eqn:Hm.
    + by apply Hr in Hm.
    + rewrite join_cons by apply split_from_nonempty.
      by rewrite <- (IH n false []).
    + rewrite <- IH, <- app_assoc. done.
Qed.

Lemma match_at_class_first_positive p r s b : match_at (Cat (Class p) r) s b ≠ Some 0.
Proof.
  intros Hm%match_at_split. rewrite drop_0 in Hm. cbn [run] in Hm.
  destruct s as [|c s]; [done|]. destruct (p c); [|done].
  apply run_suffix in Hm as (s' & Hs' & [= ->]).
  apply suffix_length in Hs'. simpl in Hs'. lia.
Qed.

Lemma match_at_blank_line_positive s b : match_at Pat.BLANK_LINE s b ≠ Some 0.
Proof. apply match_at_class_first_positive. Qed.

Lemma match_at_lone_newline c s b :
  match_at Pat.LONE_NEWLINE (c :: s) b = None
  ∨ match_at Pat.LONE_NEWLINE (c :: s) b = Some 1 ∧ c = Chr.NL.
Proof.
  unfold match_at, Pat.LONE_NEWLINE. cbn [seq run Lit].
  destruct (N.eqb_spec Chr.NL c) as [<-|]; [|by left].
  destruct s as [|d s]; cbn [fmap option_fmap option_map].
  - right. done.
  - destruct (Chr.among _ d); [by left|right].
    split; [|done]. simpl. f_equal. lia.
Qed.

Lemma dewhite_cons_space c s : Chr.isspace c = true → dewhite (c :: s) = dewhite s.
Proof. intros Hc. unfold dewhite. rewrite filter_cons_False; [done|]. by rewrite Hc. Qed.

Lemma dewhite_cons_other c s : Chr.isspace c = false → dewhite (c :: s) = c :: dewhite s.
Proof. intros Hc. unfold dewhite. by rewrite filter_cons_True. Qed.

Lemma dewhite_cons_eq c s1 s2 : dewhite s1 = dewhite s2 → dewhite (c :: s1) = dewhite (c :: s2).
Proof.
  intros H. destruct (Chr.isspace c) eqn:Hc.
  - by rewrite !dewhite_cons_space.
  - by rewrite !dewhite_cons_other, H.
Qed.

Lemma dewhite_sub_lone_newline s : ∀ b,
  dewhite (sub_from Pat.LONE_NEWLINE [Chr.SP] s 0 b) = dewhite s.
Proof.
  induction s as [|c s IH]; intros b.
  - cbn [sub_from]. by destruct (match_at _ [] b).
  - cbn [sub_from].
    destruct (match_at_lone_newline c s b) as [->|[-> ->]].
    + by apply dewhite_cons_eq.
    + simpl. rewrite !dewhite_cons_space by done. apply IH.
Qed.

Lemma dewhite_lstrip s : dewhite (Str.lstrip_by Chr.isspace s) = dewhite s.
Proof.
  destruct (lstrip_by_split Chr.isspace s) as (a & Ha & Hblank).
  rewrite Ha at 2. rewrite dewhite_app, (dewhite_blank a) by exact Hblank. done.
Qed.

Lemma dewhite_sub_spaces n : ∀ s b,
  length s ≤ n → dewhite (sub_from Pat.SPACES [Chr.SP] s 0 b) = dewhite s.
Proof.
  induction n as [|n IH]; intros s b Hlen.
  - destruct s; [done|simpl in Hlen; lia].
  - destruct s as [|c s]; [done|]. rewrite squeeze_cons. simpl in Hlen.
    destruct (Chr.isspace c) eqn:Hc.
    + rewrite !dewhite_cons_space by done.
      destruct (lstrip_by_split Chr.isspace s) as (a & Ha & _).
      apply (f_equal length) in Ha. rewrite length_app in Ha.
      rewrite IH by lia. apply dewhite_lstrip.
    + apply dewhite_cons_eq, IH. lia.
Qed.

Lemma dewhite_join sep1 sep2 l :
  dewhite sep1 = dewhite sep2 → dewhite (join sep1 l) = dewhite (join sep2 l).
Proof.
  intros Hsep. induction l as [|x l IH]; [done|].
  destruct l as [|y l]; [done|].
  rewrite (join_cons sep1 x), (join_cons sep2 x) by done.
  by rewrite !dewhite_app, Hsep, IH.
Qed.

(** X5. The normalizer loses no character but whitespace: the normalized
    text has, whitespace apart, the characters of the blocks of the source,
    in order, with one paragraph marker where each blank line was. *)
Theorem X5_preprocess_text_keeps_content raw :
  dewhite (preprocess_text raw) = dewhite (join MARK (source_blocks raw)).
Proof.
  unfold preprocess_text, re_sub.
  rewrite dewhite_strip, (dewhite_sub_spaces _ _ _ (Nat.le_refl _)).
  rewrite dewhite_sub_lone_newline.
  rewrite <- (app_nil_l (sub_from Pat.BLANK_LINE _ raw 0 true)).
  rewrite sub_from_join by apply match_at_blank_line_positive.
  by apply dewhite_join.
Qed.

End NormalizerContent.

(** ** More on [str.strip] *)

Section StripShape.
Import Str.
Variable p : char → bool.

Lemma rstrip_by_all b : Forall (λ c, p c = true) b → rstrip_by p b = [].
Proof. induction 1 as [|c b Hc _ IH]; [done|]. simpl. by rewrite IH, Hc. Qed.

Lemma rstrip_by_app_all s b :
  Forall (λ c, p c = true) b → rstrip_by p (s ++ b) = rstrip_by p s.
Proof.
  intros Hb. induction s as [|c s IH]; simpl.
  - by apply rstrip_by_all.
  - by rewrite IH.
Qed.

Lemma rstrip_by_id s : (∀ c, last s = Some c → p c = false) → rstrip_by p s = s.
Proof.
  induction s as [|c s IH]; [done|]. intros Hlast. simpl.
  destruct s as [|d s].
  - simpl. by rewrite (Hlast c).
  - rewrite IH; [done|]. intros c' Hc'. apply Hlast. by rewrite last_cons, Hc'.
Qed.

Lemma rstrip_by_last s c : last (rstrip_by p s) = Some c → p c = false.
Proof.
  induction s as [|d s IH]; [done|]. simpl.
  destruct (rstrip_by p s) as [|e r] eqn:Hr.
  - destruct (p d) eqn:Hd; [done|]. by intros [= <-].
  - rewrite last_cons_cons. apply IH.
Qed.

End StripShape.

Section StripUnique.
Import Str.

(** [strip] is taking the whitespace off both ends, and nothing else. *)
Lemma strip_unique a m b :
  blank a → blank b →
  (∀ c r, m = c :: r → Chr.isspace c = false) →
  (∀ c, last m = Some c → Chr.isspace c = false) →
  strip (a ++ m ++ b) = m.
Proof.
  intros Ha Hb Hhead Hlast. unfold strip.
  rewrite lstrip_by_app by done.
  destruct m as [|c m].
  - simpl. rewrite <- (app_nil_r b), lstrip_by_app by done. done.
  - rewrite lstrip_by_id.
    + rewrite rstrip_by_app_all by done. by apply rstrip_by_id.
    + intros c' r [= <- _]. by eapply Hhead.
Qed.

Lemma strip_head s c r : strip s = c :: r → Chr.isspace c = false.
Proof.
  unfold strip. intros (s' & Hs')%rstrip_by_head. by eapply lstrip_by_head.
Qed.

Lemma strip_last s c : last (strip s) = Some c → Chr.isspace c = false.
Proof. apply rstrip_by_last. Qed.

Lemma strip_snoc s c :
  Chr.isspace c = false → strip (s ++ [c]) = lstrip_by Chr.isspace s ++ [c].
Proof.
  intros Hc. destruct (lstrip_by_split Chr.isspace s) as (a & Ha & Hblank).
  transitivity (strip (a ++ (lstrip_by Chr.isspace s ++ [c]) ++ [])).
  { f_equal. rewrite app_nil_r, app_assoc. by rewrite <- Ha. }
  apply strip_unique; [done|apply blank_nil| |].
  - intros c' r Heq. destruct (lstrip_by Chr.isspace s) as [|d l] eqn:Hl.
    + by injection Heq as <- _.
    + injection Heq as <- _. by eapply lstrip_by_head.
  - rewrite last_snoc. by intros ? [= <-].
Qed.

Lemma strip_blank_app_r s b : blank b → strip (s ++ b) = strip s.
Proof.
  intros Hb. destruct (strip_split s) as (a & b' & Hs & Ha & Hb').
  transitivity (strip (a ++ strip s ++ (b' ++ b))).
  { f_equal. rewrite Hs at 1. by rewrite <- !app_assoc. }
  apply strip_unique; [done|by apply blank_app|apply strip_head|apply strip_last].
Qed.

(** The trimmed end of a text is the end of the trimmed text. *)
Lemma strip_suffix pre x : strip x ≠ [] → strip x `suffix_of` strip (pre ++ x).
Proof.
  intros Hne. destruct (strip_split x) as (a & b & Hx & Ha & Hb).
  destruct (lstrip_by_split Chr.isspace (pre ++ a)) as (a' & Hpre & Ha').
  assert (strip (pre ++ x) = lstrip_by Chr.isspace (pre ++ a) ++ strip x) as ->.
  { transitivity (strip (a' ++ (lstrip_by Chr.isspace (pre ++ a) ++ strip x) ++ b)).
    { f_equal. rewrite Hx at 1. rewrite !app_assoc. by rewrite <- Hpre. }
    apply strip_unique; [done|done| |].
    - intros c r Heq. destruct (lstrip_by Chr.isspace (pre ++ a)) as [|d l] eqn:Hl.
      + by eapply strip_head.
      + injection Heq as <- _. by eapply lstrip_by_head.
    - intros c Hc. apply (strip_last x). rewrite last_app in Hc.
      destruct (last (strip x)) eqn:Hl; [done|]. by apply last_None in Hl. }
  by eexists.
Qed.

Lemma count_app q s t : count q (s ++ t) = count q s + count q t.
Proof. unfold count. by rewrite filter_app, length_app. Qed.

Lemma count_blank q s : Chr.isspace q = false → blank s → count q s = 0.
Proof.
  intros Hq. unfold count. induction 1 as [|c s Hc _ IH]; [done|].
  rewrite filter_cons_False; [done|]. congruence.
Qed.

Lemma count_lstrip q s :
  Chr.isspace q = false → count q (lstrip_by Chr.isspace s) = count q s.
Proof.
  intros Hq. destruct (lstrip_by_split Chr.isspace s) as (a & Ha & Hblank).
  rewrite Ha at 2. rewrite count_app, (count_blank q a) by done. done.
Qed.

(** The sentence closed at a terminator keeps the counts of the buffer. *)
Lemma closed_strip cur c :
  terminator c = true →
  count Chr.QUOTE (cur ++ [c]) mod 2 = 0 →
  count Chr.LPAREN (cur ++ [c]) ≤ count Chr.RPAREN (cur ++ [c]) →
  closed (strip (cur ++ [c])).
Proof.
  intros Hterm Hq Hp. rewrite strip_snoc by by apply terminator_not_space.
  rewrite !count_app in Hq. rewrite !count_app in Hp. split_and!.
  - exists c. split; [apply last_snoc|done].
  - rewrite count_app, count_lstrip by done. exact Hq.
  - rewrite !count_app, !count_lstrip by done. exact Hp.
Qed.

End StripUnique.

(** ** Where a sentence is cut *)

Section ScanInvariants.
Variable ua : char → bool.
Variable A : gset pystr.

(** What every round keeps, the whole scan keeps. *)
Lemma scan_step_invariant (I : scan_state → Prop) p :
  (∀ st st', pos st < length p → I st → scan_step ua A p st = Some st' → I st') →
  ∀ fuel st st', scan ua A fuel p st = Some st' → I st → I st'.
Proof.
  intros Hstep. induction fuel as [|fuel IH]; intros st st'; simpl;
    destruct (Nat.leb_spec (length p) (pos st)) as [Hge|Hlt].
  - by intros [= ->].
  - done.
  - by intros [= ->].
  - destruct (scan_step ua A p st) as [st1|] eqn:Hs; [|done].
    cbn [mbind option_bind]. intros Hscan Hst. eapply IH; [done|]. by eapply Hstep.
Qed.

Lemma scan_outcome_invariant (I : scan_state → Prop) p :
  (∀ st st', I st → step_outcome p st st' → I st') →
  ∀ fuel st st', scan ua A fuel p st = Some st' → I st → I st'.
Proof.
  intros Hout. apply scan_step_invariant. intros st st' Hlt Hst Hs.
  destruct (scan_step_outcome ua A p st Hlt) as (st'' & Hs' & Hstep).
  rewrite Hs in Hs'. injection Hs' as <-. by eapply Hout.
Qed.

(** The scan of a paragraph that is not blank, with the end of the loop:
    the rounds, the flush of what is left and the marker. *)
Lemma do_paragraph_unfold ps carry sents p :
  truthy (Str.strip p) = true → blank carry → is_Some (last ps) →
  ∃ st w pre x,
    scan ua A (length p) p (ScanState 0 carry sents) = Some st
    ∧ blank w ∧ current_sentence st = w ++ x ∧ p = pre ++ x
    ∧ do_paragraph ua A ps (carry, sents) p
      = Some (if truthy (Str.strip x) then [] else current_sentence st,
              (sentences st ++ if truthy (Str.strip x) then [Str.strip x] else [])
              ++ if bool_decide (Some p ≠ last ps) then [MARK] else []).
Proof.
  intros Hp Hcarry [lp Hlast]. unfold do_paragraph. rewrite Hp. cbn [negb fst snd].
  destruct (scan_spec ua A p (length p) (ScanState 0 carry sents))
    as (st & toks & Hscan & Hend & Hread & _);
    [simpl; lia|by apply reading_start|].
  destruct Hread as (w & pre & x & Hw & Hcur & Hpx & _).
  rewrite Hend, drop_all, app_nil_r in Hpx.
  exists st, w, pre, x. rewrite Hscan. split_and!; [done..|].
  cbn [mbind option_bind]. rewrite Hlast. cbn [mbind option_bind].
  rewrite Hcur, strip_blank_app by done.
  assert (bool_decide (Some p ≠ Some lp) = bool_decide (p ≠ lp)) as ->.
  { apply bool_decide_ext. naive_solver. }
  destruct (truthy (Str.strip x)), (bool_decide (p ≠ lp)); by rewrite ?app_nil_r.
Qed.

End ScanInvariants.

Section ClosedSentences.
Variable ua : char → bool.
Variable A : gset pystr.
Variable ps : list pystr.

Lemma scan_closed p fuel st st' :
  scan ua A fuel p st = Some st' →
  Forall (closed_or_last ps) (sentences st) → Forall (closed_or_last ps) (sentences st').
Proof.
  apply (scan_outcome_invariant ua A (λ st, Forall (closed_or_last ps) (sentences st))).
  clear. intros st st' Hst [chunk _ _ _ _ _ ->|c _ _ _ Hterm Hq Hp _ _ _ ->]; [done|].
  apply Forall_app. split; [done|]. constructor; [|done].
  right; left. by apply closed_strip.
Qed.

Lemma do_paragraph_closed carry sents p :
  blank carry → is_Some (last ps) → p ∈ ps → Forall (closed_or_last ps) sents →
  ∃ carry' sents',
    do_paragraph ua A ps (carry, sents) p = Some (carry', sents')
    ∧ blank carry' ∧ Forall (closed_or_last ps) sents'.
Proof.
  intros Hcarry Hlast Hp Hsents.
  destruct (truthy (Str.strip p)) eqn:Hblank; cycle 1.
  { exists carry, sents. unfold do_paragraph. by rewrite Hblank. }
  destruct (do_paragraph_unfold ua A ps carry sents p Hblank Hcarry Hlast)
    as (st & w & pre & x & Hscan & Hw & Hcur & Hpx & ->).
  apply scan_closed in Hscan; [|done].
  eexists _, _. split; [done|]. split.
  - destruct (truthy (Str.strip x)) eqn:Hx; [apply blank_nil|].
    rewrite Hcur. apply blank_app. split; [done|].
    by apply strip_nil_blank, truthy_false.
  - rewrite !Forall_app. split_and!; [done| |].
    + destruct (truthy (Str.strip x)) eqn:Hx; [|constructor].
      constructor; [|done]. right; right. exists p. split; [done|].
      rewrite Hpx. by apply strip_suffix, truthy_true.
    + destruct (bool_decide _); [|constructor]. constructor; [by left|done].
Qed.

Lemma for_paragraphs_closed todo : ∀ carry sents,
  blank carry → is_Some (last ps) → Forall (λ p, p ∈ ps) todo →
  Forall (closed_or_last ps) sents →
  ∃ carry' sents',
    for_paragraphs ua A ps (carry, sents) todo = Some (carry', sents')
    ∧ Forall (closed_or_last ps) sents'.
Proof.
  induction todo as [|p todo IH]; intros carry sents Hcarry Hlast Htodo Hsents; simpl.
  - by exists carry, sents.
  - apply Forall_cons in Htodo as [Hp Htodo].
    destruct (do_paragraph_closed carry sents p) as (carry1 & sents1 & -> & ? & ?);
      [done..|].
    cbn [mbind option_bind]. by apply IH.
Qed.

End ClosedSentences.

Section ClosedTheorem.
Variable ua : char → bool.
Variable A : gset pystr.

(** X6. The scanner cuts a sentence only at a terminator, with the double
    quotes paired and no parenthesis left open: every token is a marker,
    or ends with one of [.!?] and has an even number of double quotes and
    no more opening than closing parentheses, or is what was left at the
    end of a paragraph. *)
Theorem X6_sentences_closed_or_end_of_paragraph text :
  ∃ tokens, split_into_sentences ua A text = Some tokens
    ∧ Forall (λ t, t = MARK ∨ closed t
                   ∨ ∃ p, p ∈ Str.split text MARK ∧ t `suffix_of` Str.strip p)
        tokens.
Proof.
  unfold split_into_sentences.
  destruct (for_paragraphs_closed ua A (Str.split text MARK) (Str.split text MARK) [] [])
    as (carry' & sents' & -> & Hall);
    [apply blank_nil|apply split_go_last|by apply Forall_forall|constructor|].
  by exists sents'.
Qed.

End ClosedTheorem.

(** ** Texts with no terminator *)

Section PlainText.
Variable ua : char → bool.
Variable A : gset pystr.

Lemma split_no_marker text : ¬ occurs_in MARK text → Str.split text MARK = [text].
Proof.
  intros Hno. unfold Str.split. by destruct (split_go_whole MARK text []) as [->|?].
Qed.

Lemma elem_of_dropped {X} (l : list X) n x rest : drop n l = x :: rest → x ∈ l.
Proof.
  intros Hd. rewrite <- (take_drop n l), Hd. apply elem_of_app. right. by left.
Qed.

(** A text with one paragraph: the scan, then the flush, and no marker. *)
Lemma split_into_sentences_one_paragraph text :
  ¬ occurs_in MARK text → truthy (Str.strip text) = true →
  ∃ st w pre x,
    scan ua A (length text) text (ScanState 0 [] []) = Some st
    ∧ current_sentence st = w ++ x ∧ blank w ∧ text = pre ++ x
    ∧ split_into_sentences ua A text
      = Some (sentences st ++ if truthy (Str.strip x) then [Str.strip x] else []).
Proof.
  intros Hno Hblank. unfold split_into_sentences.
  rewrite (split_no_marker text Hno). cbn [for_paragraphs].
  destruct (do_paragraph_unfold ua A [text] [] [] text Hblank)
    as (st & w & pre & x & Hscan & Hw & Hcur & Hpx & ->); [apply blank_nil|by eexists|].
  exists st, w, pre, x. split_and!; [done..|].
  cbn [mbind option_bind fmap option_fmap option_map snd last].
  rewrite bool_decide_eq_false_2 by naive_solver. by rewrite app_nil_r.
Qed.

(** X7. A text with no terminator and no marker is one token, the text
    trimmed; a blank one has no token. *)
Theorem X7_text_without_terminator_is_one_token text :
  (∀ c, c ∈ text → terminator c = false) → ¬ occurs_in MARK text →
  split_into_sentences ua A text
  = Some (if truthy (Str.strip text) then [Str.strip text] else []).
Proof.
  intros Hplain Hno. destruct (truthy (Str.strip text)) eqn:Hblank; cycle 1.
  { unfold split_into_sentences. rewrite (split_no_marker text Hno).
    cbn [for_paragraphs]. unfold do_paragraph. by rewrite Hblank. }
  destruct (split_into_sentences_one_paragraph text Hno Hblank)
    as (st & w & pre & x & Hscan & Hcur & Hw & Hpx & ->).
  assert (sentences st = [] ∧ current_sentence st ++ drop (pos st) text = text)
    as [Hsent Hall].
  { eapply (scan_outcome_invariant ua A
              (λ st, sentences st = [] ∧ current_sentence st ++ drop (pos st) text = text));
      [|exact Hscan|].
    - intros st1 st2 [Hs1 Hc1] [chunk Hdrop _ _ _ -> ->|c Hdrop _ _ Hterm _ _ _ _ _ _].
      + split; [done|]. by rewrite <- app_assoc, <- Hdrop.
      + apply elem_of_dropped, Hplain in Hdrop. congruence.
    - done. }
  destruct (scan_spec ua A text (length text) (ScanState 0 [] []))
    as (st' & _ & Hscan' & Hend & _); [simpl; lia|apply reading_start, blank_nil|].
  rewrite Hscan in Hscan'. injection Hscan' as <-.
  rewrite Hend, drop_all, app_nil_r in Hall.
  rewrite Hsent. simpl.
  assert (Str.strip x = Str.strip text) as ->.
  { rewrite <- Hall, Hcur. by rewrite strip_blank_app. }
  by rewrite Hblank.
Qed.

End PlainText.

(** The one paragraph ["no stop here"]. *)
Lemma X7_text_without_terminator_is_one_token_witness :
  (∀ c, c ∈ py "  no stop here " → terminator c = false)
  ∧ ¬ occurs_in MARK (py "  no stop here ")
  ∧ split_into_sentences (λ _, false) DEFAULT_ABBREVIATIONS (py "  no stop here ")
    = Some [py "no stop here"].
Proof.
  assert (∀ c, c ∈ py "  no stop here " → terminator c = false) as Hplain.
  { intros c Hc. vm_compute in Hc. repeat (apply elem_of_cons in Hc as [->|Hc]; [done|]).
    by apply elem_of_nil in Hc. }
  assert (¬ occurs_in MARK (py "  no stop here ")) as Hno.
  { intros (a & b & Heq).
    assert (91%N ∈ py "  no stop here ") as Hin.
    { rewrite Heq. apply elem_of_app. right. by left. }
    vm_compute in Hin. repeat (apply elem_of_cons in Hin as [?|Hin]; [done|]).
    by apply elem_of_nil in Hin. }
  split_and!; [done|done|].
  exact (X7_text_without_terminator_is_one_token (λ _, false) DEFAULT_ABBREVIATIONS
           (py "  no stop here ") Hplain Hno).
Defined.

(** ** Exclamation and question marks *)

Section ExclamationFacts.
Variable ua : char → bool.
Variable A : gset pystr.

(** A round on a character that is no terminator only reads it. *)
Lemma scan_step_plain p st c :
  p !! pos st = Some c → terminator c = false →
  scan_step ua A p st
  = Some (ScanState (pos st + 1) (current_sentence st ++ [c]) (sentences st)).
Proof. intros Hc Hterm. unfold scan_step. rewrite Hc. simpl. by rewrite Hterm. Qed.

(** A round on [!] or [?] closes the sentence when the quotes are paired,
    no parenthesis is open and the attribution pattern does not match:
    the abbreviations are not consulted. *)
Lemma scan_step_exclamation p st c :
  p !! pos st = Some c → c = Chr.BANG ∨ c = Chr.QMARK →
  Str.count Chr.QUOTE (current_sentence st ++ [c]) mod 2 = 0 →
  Str.count Chr.LPAREN (current_sentence st ++ [c])
    ≤ Str.count Chr.RPAREN (current_sentence st ++ [c]) →
  Re.re_search Pat.ATTRIBUTION (current_sentence st ++ [c]) = false →
  scan_step ua A p st
  = Some (ScanState (pos st + 1) []
            (sentences st ++ [Str.strip (current_sentence st ++ [c])])).
Proof.
  intros Hc Hbang Hq Hp Hattr. unfold scan_step. rewrite Hc. cbn [mbind option_bind].
  assert (terminator c = true) as -> by by destruct Hbang as [-> | ->].
  assert ((c =? Chr.DOT)%N = false) as -> by by destruct Hbang as [-> | ->].
  cbn [andb mbind option_bind negb orb]. rewrite Hattr.
  apply Nat.eqb_eq in Hq. rewrite Hq.
  apply Nat.ltb_ge in Hp. rewrite Hp. done.
Qed.

Lemma run_cat r1 r2 s b k :
  Re.run (Re.Cat r1 r2) s b k
  = Re.run r1 s b (λ s', Re.run r2 s' (b && (length s' =? length s)) k).
Proof. done. Qed.

(** The attribution pattern needs a double quote. *)
Lemma no_quote_no_attribution s :
  Chr.QUOTE ∉ s → Re.re_search Pat.ATTRIBUTION s = false.
Proof.
  unfold Re.re_search. generalize true.
  induction s as [|c s IH]; intros b Hno.
  - by destruct b.
  - cbn [Re.search_from].
    assert (Re.match_at Pat.ATTRIBUTION (c :: s) b = None) as ->.
    { unfold Re.match_at, Pat.ATTRIBUTION. cbn [Re.seq].
      destruct (Re.run _ (c :: s) b Some) as [e|] eqn:Hrun; [|done]. exfalso.
      rewrite run_cat in Hrun. apply run_suffix in Hrun as (s1 & Hs1 & Hrun).
      rewrite run_cat in Hrun. apply run_suffix in Hrun as (s2 & Hs2 & Hrun).
      rewrite run_cat in Hrun. unfold Re.Lit at 1 in Hrun. cbn [Re.run] in Hrun.
      destruct s2 as [|d s2]; [done|].
      destruct (N.eqb_spec Chr.QUOTE d) as [<-|]; [|done].
      apply Hno. destruct Hs1 as [a1 ->], Hs2 as [a2 ->].
      rewrite app_assoc. apply elem_of_app. right. by left. }
    apply IH. intros Hin. apply Hno. by right.
Qed.

Lemma count_absent q s : q ∉ s → Str.count q s = 0.
Proof.
  unfold Str.count. induction s as [|c s IH]; intros Hq; [done|].
  rewrite filter_cons_False.
  - apply IH. intros ?. apply Hq. by right.
  - intros ->. apply Hq. by left.
Qed.

(** X8. In a text with no marker, the first [!] or [?], when no
    terminator, double quote or opening parenthesis comes before it,
    closes the first sentence, whatever the abbreviations: the first token
    is the text up to it, trimmed. *)
Theorem X8_first_exclamation_closes_first_sentence x c rest :
  c = Chr.BANG ∨ c = Chr.QMARK →
  Forall (λ d, terminator d = false ∧ d ≠ Chr.QUOTE ∧ d ≠ Chr.LPAREN) x →
  ¬ occurs_in MARK (x ++ c :: rest) →
  ∃ more, split_into_sentences ua A (x ++ c :: rest)
          = Some (Str.strip (x ++ [c]) :: more).
Proof.
  intros Hbang Hx Hno. set (text := x ++ c :: rest) in *.
  assert (Chr.isspace c = false) as Hc by by destruct Hbang as [-> | ->].
  assert (truthy (Str.strip text) = true) as Hblank.
  { apply truthy_true, (strip_nonblank _ c); [|done].
    apply elem_of_app. right. by left. }
  destruct (split_into_sentences_one_paragraph ua A text Hno Hblank)
    as (st & w & pre & x' & Hscan & Hcur & Hw & Hpx & ->).
  destruct (scan_spec ua A text (length text) (ScanState 0 [] []))
    as (st' & _ & Hscan' & Hend & _); [simpl; lia|apply reading_start, blank_nil|].
  rewrite Hscan in Hscan'. injection Hscan' as <-.
  assert ((pos st ≤ length x ∧ sentences st = []
           ∧ current_sentence st = take (pos st) text)
          ∨ (length x < pos st
             ∧ ∃ toks, sentences st = Str.strip (x ++ [c]) :: toks)) as Hinv.
  { eapply (scan_step_invariant ua A
              (λ st, (pos st ≤ length x ∧ sentences st = []
                      ∧ current_sentence st = take (pos st) text)
                     ∨ (length x < pos st
                        ∧ ∃ toks, sentences st = Str.strip (x ++ [c]) :: toks)));
      [|exact Hscan|left; simpl; split_and!; [lia|done|done]].
    clear -Hbang Hx. intros st st' Hlt [(Hle & Hsent & Hcur)|(Hgt & toks & Hsent)] Hstep.
    - destruct (decide (pos st = length x)) as [Heq|Hne].
      + (* the round on the terminator *)
        assert (text !! pos st = Some c) as Hc.
        { rewrite Heq. by apply list_lookup_middle. }
        assert (current_sentence st = x) as Hcurx.
        { rewrite Hcur, Heq. by apply take_app_length. }
        assert (Chr.QUOTE ∉ x ++ [c]) as Hnoq.
        { intros [Hin|Hin%list_elem_of_singleton]%elem_of_app.
          - rewrite Forall_forall in Hx. by destruct (Hx _ Hin) as (_ & ? & _).
          - by destruct Hbang as [-> | ->]. }
        assert (Chr.LPAREN ∉ x ++ [c]) as Hnop.
        { intros [Hin|Hin%list_elem_of_singleton]%elem_of_app.
          - rewrite Forall_forall in Hx. by destruct (Hx _ Hin) as (_ & _ & ?).
          - by destruct Hbang as [-> | ->]. }
        rewrite (scan_step_exclamation text st c) in Hstep;
          [|done|done|rewrite Hcurx..].
        * injection Hstep as <-. right. simpl. split; [lia|].
          exists []. by rewrite Hsent, Hcurx.
        * by rewrite (count_absent _ _ Hnoq).
        * rewrite (count_absent _ _ Hnop). lia.
        * by apply no_quote_no_attribution.
      + (* a round before it *)
        assert (pos st < length x) as Hltx by lia.
        destruct (lookup_lt_is_Some_2 x (pos st) Hltx) as [d Hd].
        assert (text !! pos st = Some d) as Hd'.
        { unfold text. by rewrite lookup_app_l. }
        assert (terminator d = false) as Hterm.
        { rewrite Forall_forall in Hx. apply (Hx d). by eapply list_elem_of_lookup_2. }
        rewrite (scan_step_plain text st d Hd' Hterm) in Hstep.
        injection Hstep as <-. left. simpl. split_and!; [lia|done|].
        rewrite Nat.add_1_r. by rewrite (take_S_r _ _ d), Hcur.
    - destruct (scan_step_outcome ua A text st Hlt) as (st'' & Hstep' & Hout).
      rewrite Hstep in Hstep'. injection Hstep' as <-. right.
      destruct Hout as [chunk _ Hpos _ _ _ ->|c' _ Hpos _ _ _ _ _ _ _ ->].
      + split; [lia|]. by exists toks.
      + split; [lia|]. exists (toks ++ [Str.strip (current_sentence st ++ [c'])]).
        by rewrite Hsent. }
  destruct Hinv as [(Hle & _)|(_ & toks & ->)].
  - rewrite Hend in Hle. unfold text in Hle. rewrite length_app in Hle. simpl in Hle. lia.
  - by eexists.
Qed.

End ExclamationFacts.

(** ["Stop! Go on."]: the first sentence is ["Stop!"]. *)
Lemma X8_first_exclamation_closes_first_sentence_witness :
  (Chr.BANG = Chr.BANG ∨ Chr.BANG = Chr.QMARK)
  ∧ Forall (λ d, terminator d = false ∧ d ≠ Chr.QUOTE ∧ d ≠ Chr.LPAREN) (py "Stop")
  ∧ ¬ occurs_in MARK (py "Stop" ++ Chr.BANG :: py " Go on.")
  ∧ ∃ more, split_into_sentences (λ _, false) DEFAULT_ABBREVIATIONS
              (py "Stop" ++ Chr.BANG :: py " Go on.")
            = Some (Str.strip (py "Stop" ++ [Chr.BANG]) :: more).
Proof.
  assert (Forall (λ d, terminator d = false ∧ d ≠ Chr.QUOTE ∧ d ≠ Chr.LPAREN) (py "Stop"))
    as Hx by (repeat constructor; done).
  assert (¬ occurs_in MARK (py "Stop" ++ Chr.BANG :: py " Go on.")) as Hno.
  { intros (a & b & Heq).
    assert (91%N ∈ py "Stop" ++ Chr.BANG :: py " Go on.") as Hin.
    { rewrite Heq. apply elem_of_app. right. by left. }
    vm_compute in Hin. repeat (apply elem_of_cons in Hin as [?|Hin]; [done|]).
    by apply elem_of_nil in Hin. }
  split_and!; [by left|done|done|].
  exact (X8_first_exclamation_closes_first_sentence (λ _, false) DEFAULT_ABBREVIATIONS
           (py "Stop") Chr.BANG (py " Go on.") (or_introl eq_refl) Hx Hno).
Defined.

(** ** load_abbreviations *)

Section AbbreviationFile.

(** A line of a file has no newline but as its last character. *)
Lemma file_lines_go_shape s : ∀ line,
  Chr.NL ∉ line →
  Forall (λ l, ∃ body, (Chr.NL ∉ body) ∧ (l = body ∨ l = body ++ [Chr.NL]))
    (file_lines_go s line).
Proof.
  induction s as [|c s IH]; intros line Hline; simpl.
  - destruct line; constructor; [|done]. eexists. split; [done|by left].
  - destruct (N.eqb_spec c Chr.NL) as [->|Hc].
    + constructor; [|apply IH; by intros ?%elem_of_nil].
      exists line. split; [done|by right].
    + apply IH. intros [?|?%list_elem_of_singleton]%elem_of_app; done.
Qed.

Lemma strip_of_line body l :
  l = body ∨ l = body ++ [Chr.NL] → Str.strip l = Str.strip body.
Proof.
  intros [->| ->]; [done|]. apply strip_blank_app_r. by repeat constructor.
Qed.

Lemma elem_of_stripped_lines w lines :
  w ∈ stripped_lines lines ↔ w ≠ [] ∧ ∃ l, l ∈ lines ∧ Str.strip l = w.
Proof.
  unfold stripped_lines. rewrite elem_of_list_to_set, list_elem_of_fmap. split.
  - intros (l & -> & [Hl Hin]%list_elem_of_filter). split; [by apply truthy_true|eauto].
  - intros (Hw & l & Hin & <-). exists l. split; [done|].
    apply list_elem_of_filter. split; [by apply truthy_true|done].
Qed.

(** X9. The abbreviations loaded from a file are the lines of the file,
    trimmed, that are not blank: a string is loaded exactly when it is
    not empty and is some line of the file trimmed.  So a loaded
    abbreviation has no whitespace at its ends and no newline. *)
Theorem X9_loaded_abbreviations_trimmed content abbreviations w :
  load_abbreviations (FileText content) = Some abbreviations →
  (w ∈ abbreviations
   ↔ w ≠ [] ∧ ∃ line, line ∈ file_lines content ∧ Str.strip line = w)
  ∧ (w ∈ abbreviations → Str.strip w = w ∧ Chr.NL ∉ w).
Proof.
  intros [= <-]. split; [apply elem_of_stripped_lines|].
  intros (Hw & l & Hl & <-)%elem_of_stripped_lines.
  split; [apply strip_idem|].
  pose proof (file_lines_go_shape content []) as Hshape.
  rewrite Forall_forall in Hshape.
  destruct (Hshape (λ H, proj1 (elem_of_nil _) H) l Hl) as (body & Hbody & Hcase).
  rewrite (strip_of_line body l Hcase).
  destruct (strip_occurs_in body) as (a & b & Heq). intros Hin. apply Hbody.
  rewrite Heq. apply elem_of_app. right. apply elem_of_app. by left.
Qed.

Lemma stripped_lines_app l1 l2 :
  stripped_lines (l1 ++ l2) = stripped_lines l1 ∪ stripped_lines l2.
Proof.
  unfold stripped_lines. by rewrite filter_app, fmap_app, list_to_set_app_L.
Qed.

Lemma stripped_lines_equiv l l' lines :
  Str.strip l = Str.strip l' →
  stripped_lines (l :: lines) = stripped_lines (l' :: lines).
Proof.
  intros Heq. apply set_eq. intros w. rewrite !elem_of_stripped_lines.
  split; intros (Hw & x & [->|Hin]%elem_of_cons & <-); (split; [done|]).
  - exists l'. split; [by left|done].
  - exists x. split; [by right|done].
  - exists l. split; [by left|done].
  - exists x. split; [by right|done].
Qed.

Lemma stripped_lines_blank l lines :
  Str.strip l = [] → stripped_lines (l :: lines) = stripped_lines lines.
Proof.
  intros Hl. unfold stripped_lines. rewrite filter_cons_False; [done|].
  rewrite Hl. done.
Qed.

Lemma stripped_lines_pending line :
  stripped_lines (match line with [] => [] | _ => [line] end) = stripped_lines [line].
Proof. destruct line; [|done]. symmetry. by apply stripped_lines_blank. Qed.

Lemma file_lines_go_app a b : ∀ line,
  stripped_lines (file_lines_go (a ++ Chr.NL :: b) line)
  = stripped_lines (file_lines_go a line) ∪ stripped_lines (file_lines b).
Proof.
  induction a as [|c a IH]; intros line; simpl.
  - change ((line ++ [Chr.NL]) :: file_lines_go b [])
      with ([line ++ [Chr.NL]] ++ file_lines b).
    rewrite stripped_lines_app, stripped_lines_pending. f_equal.
    apply stripped_lines_equiv, strip_blank_app_r. by repeat constructor.
  - destruct (c =? Chr.NL)%N; [|apply IH].
    change ((line ++ [c]) :: ?l) with ([line ++ [c]] ++ l).
    rewrite !(stripped_lines_app [_]), IH. by rewrite (assoc_L (∪)).
Qed.

(** X10. Loading two abbreviation files put end to end, with a newline
    between them, gives the union of what each of them gives. *)
Theorem X10_load_abbreviations_concatenation a b :
  ∃ abbreviations_a abbreviations_b,
    load_abbreviations (FileText a) = Some abbreviations_a
    ∧ load_abbreviations (FileText b) = Some abbreviations_b
    ∧ load_abbreviations (FileText (a ++ Chr.NL :: b))
      = Some (abbreviations_a ∪ abbreviations_b).
Proof.
  eexists _, _. split_and!; [done|done|]. simpl. f_equal. apply file_lines_go_app.
Qed.

End AbbreviationFile.

(** A file of two lines, the second with spaces around [Dr]. *)
Lemma X9_loaded_abbreviations_trimmed_witness :
  let content := py "Mr" ++ [Chr.NL] ++ py " Dr  " ++ [Chr.NL] in
  load_abbreviations (FileText content) = Some (stripped_lines (file_lines content))
  ∧ (py "Dr" ∈ stripped_lines (file_lines content)
     ↔ py "Dr" ≠ [] ∧ ∃ line, line ∈ file_lines content ∧ Str.strip line = py "Dr")
  ∧ (py "Dr" ∈ stripped_lines (file_lines content)
     → Str.strip (py "Dr") = py "Dr" ∧ Chr.NL ∉ py "Dr").
Proof.
  intros content. split; [reflexivity|].
  exact (X9_loaded_abbreviations_trimmed content _ (py "Dr") eq_refl).
Defined.

(** ** write_to_csv *)

Section CsvFacts.
Variable ua : char → bool.
Variable A : gset pystr.

Lemma doubled_cons c s :
  Csv.doubled (c :: s)
  = (if (c =? Chr.QUOTE)%N then [Chr.QUOTE; Chr.QUOTE] else [c]) ++ Csv.doubled s.
Proof. done. Qed.

Lemma doubled_head c s : ∃ r, Csv.doubled (c :: s) = c :: r.
Proof.
  rewrite doubled_cons. destruct (N.eqb_spec c Chr.QUOTE) as [->|]; by eexists.
Qed.

Lemma doubled_inj s1 : ∀ s2, Csv.doubled s1 = Csv.doubled s2 → s1 = s2.
Proof.
  induction s1 as [|c1 s1 IH]; intros [|c2 s2] Heq.
  - done.
  - destruct (doubled_head c2 s2) as [r Hr]. by rewrite Hr in Heq.
  - destruct (doubled_head c1 s1) as [r Hr]. by rewrite Hr in Heq.
  - assert (c1 = c2) as <-.
    { destruct (doubled_head c1 s1) as [r1 Hr1], (doubled_head c2 s2) as [r2 Hr2].
      rewrite Hr1, Hr2 in Heq. by injection Heq. }
    rewrite !doubled_cons in Heq. apply app_inv_head in Heq. f_equal. by apply IH.
Qed.

Lemma field_plain s :
  s ≠ [] → Forall (λ c, Csv.special c = false) s → Csv.field s = s.
Proof.
  intros Hs Hall. unfold Csv.field.
  assert (existsb Csv.special s = false) as ->.
  { clear Hs. induction Hall as [|c s Hc _ IH]; [done|]. simpl. by rewrite Hc. }
  by destruct s.
Qed.

Lemma field_cases s :
  (Csv.field s = s ∧ s ≠ [] ∧ Chr.QUOTE ∉ s)
  ∨ Csv.field s = Chr.QUOTE :: Csv.doubled s ++ [Chr.QUOTE].
Proof.
  unfold Csv.field. destruct s as [|c s]; [by right|]. cbn [truthy andb].
  destruct (existsb Csv.special (c :: s)) eqn:Hex; [by right|]. left.
  split_and!; [done..|]. intros Hin.
  assert (existsb Csv.special (c :: s) = true); [|congruence].
  apply existsb_exists. exists Chr.QUOTE. split; [by apply list_elem_of_In|done].
Qed.

(** X12. The record written for a sentence tells the sentence: two
    sentences with the same field are the same. *)
Theorem X12_csv_field_injective s1 s2 : Csv.field s1 = Csv.field s2 → s1 = s2.
Proof.
  destruct (field_cases s1) as [(-> & Hne1 & Hq1)| ->],
           (field_cases s2) as [(-> & Hne2 & Hq2)| ->].
  - done.
  - intros ->. exfalso. apply Hq1. by left.
  - intros <-. exfalso. apply Hq2. by left.
  - intros [= Heq]. apply app_inj_tail in Heq as [Heq _]. by apply doubled_inj.
Qed.

End CsvFacts.

(** The field of ["a,b"], twice. *)
Lemma X12_csv_field_injective_witness :
  Csv.field (py "a,b") = Csv.field (py "a,b") ∧ py "a,b" = py "a,b".
Proof.
  split; [reflexivity|].
  exact (X12_csv_field_injective (py "a,b") (py "a,b") eq_refl).
Defined.

Section CsvRows.
Variable ua : char → bool.
Variable A : gset pystr.

Lemma split_go_record f rest : ∀ piece,
  Csv.CR ∉ f →
  Str.split_go [Csv.CR; Chr.NL] (f ++ Csv.CR :: Chr.NL :: rest) 0 piece
  = (piece ++ f) :: Str.split_go [Csv.CR; Chr.NL] rest 0 [].
Proof.
  induction f as [|c f IH]; intros piece Hf.
  - by rewrite app_nil_r.
  - cbn [app Str.split_go Str.starts_with].
    destruct (N.eqb_spec Csv.CR c) as [<-|_].
    { exfalso. apply Hf. by left. }
    cbn [andb]. rewrite IH, <- app_assoc; [done|].
    intros ?. apply Hf. by right.
Qed.

Lemma doubled_elem c s : c ∈ Csv.doubled s → c ∈ s.
Proof.
  induction s as [|d s IH]; [done|]. rewrite doubled_cons, elem_of_app.
  intros [Hin|Hin]; apply elem_of_cons; [left|right; by apply IH].
  destruct (N.eqb_spec d Chr.QUOTE) as [->|].
  - by apply elem_of_cons in Hin as [->| ->%list_elem_of_singleton].
  - by apply list_elem_of_singleton in Hin.
Qed.

Lemma field_no_return s : Csv.CR ∉ s → Csv.CR ∉ Csv.field s.
Proof.
  intros Hs. destruct (field_cases s) as [(-> & _)| ->]; [done|].
  intros [?|[?%doubled_elem|?%list_elem_of_singleton]%elem_of_app]%elem_of_cons; done.
Qed.

(** The rows of the file, one for each sentence that has no carriage
    return. *)
Lemma split_write_to_csv sentences :
  Forall (λ t, Csv.CR ∉ t) sentences →
  Str.split (write_to_csv sentences) [Csv.CR; Chr.NL]
  = (Csv.field <$> sentences) ++ [[]].
Proof.
  unfold Str.split, write_to_csv. induction 1 as [|t ts Ht _ IH]; [done|].
  cbn [fmap list_fmap concat app]. unfold Csv.writerow at 1.
  rewrite <- app_assoc. cbn [app].
  rewrite split_go_record by by apply field_no_return.
  by rewrite IH.
Qed.

Lemma single_spaced_plain t c :
  single_spaced t → Chr.isspace c = true → c ≠ Chr.SP → c ∉ t.
Proof. intros [Hsp _] Hc Hne Hin. by apply Hne, Hsp. Qed.

(** X11. The file written for a source text has one line for each token:
    cut at the line terminators, it is the fields of the tokens, in
    order, and the field of a token that has no comma and no double quote
    is the token as it is. *)
Theorem X11_csv_one_line_per_token raw :
  ∃ tokens, process_text ua A raw = Some tokens
    ∧ Str.split (write_to_csv tokens) [Csv.CR; Chr.NL] = (Csv.field <$> tokens) ++ [[]]
    ∧ Forall (λ t, Csv.COMMA ∉ t → Chr.QUOTE ∉ t → Csv.field t = t) tokens.
Proof.
  unfold process_text.
  destruct (split_into_sentences_spec ua A (preprocess_text raw)) as (tss & -> & Htss).
  eexists. split; [done|].
  assert (Forall (λ t, t ≠ [] ∧ single_spaced t)
            (layout (Str.split (preprocess_text raw) MARK)
               (Str.split (preprocess_text raw) MARK) tss)) as Hall.
  { apply Forall_forall. intros t Ht. split.
    - destruct (layout_elem _ _ _ _ Htss Ht) as [->|(p & _ & _ & Hne & _)]; done.
    - destruct (token_occurs_in_text _ tss t Htss Ht) as [Hocc _].
      apply squeezed_single_spaced.
      eapply squeezed_occurs_in; [done|]. apply preprocess_text_squeezed. }
  split.
  - apply split_write_to_csv. eapply Forall_impl; [exact Hall|].
    intros t [_ Hsp]. by apply (single_spaced_plain t Csv.CR).
  - eapply Forall_impl; [exact Hall|]. intros t [Hne Hsp] Hcomma Hquote.
    apply field_plain; [done|]. apply Forall_forall. intros c Hc.
    unfold Csv.special.
    destruct (N.eqb_spec c Csv.COMMA) as [->|_]; [done|].
    destruct (N.eqb_spec c Chr.QUOTE) as [->|_]; [done|].
    destruct (N.eqb_spec c Csv.CR) as [->|_].
    { by destruct (single_spaced_plain t Csv.CR Hsp). }
    destruct (N.eqb_spec c Chr.NL) as [->|_]; [|done].
    by destruct (single_spaced_plain t Chr.NL Hsp).
Qed.

End CsvRows.

(** ** Abbreviations with whitespace *)

Section SpacelessAbbreviations.
Variable ua : char → bool.
Variables A B : gset pystr.
Hypothesis same_spaceless : ∀ w, spaceless w → (w ∈ A ↔ w ∈ B).

Lemma split_ws_go_spaceless s : ∀ w,
  spaceless w → Forall spaceless (Str.split_ws_go s w).
Proof.
  induction s as [|c s IH]; intros w Hw; simpl.
  - destruct w; [constructor|]. constructor; [done|constructor].
  - destruct (Chr.isspace c) eqn:Hc.
    + destruct w; [apply IH; constructor|]. constructor; [done|]. apply IH; constructor.
    + apply IH, Forall_app. split; [done|]. constructor; [done|constructor].
Qed.

Lemma rstrip_by_spaceless p w : spaceless w → spaceless (Str.rstrip_by p w).
Proof.
  intros Hw. destruct (rstrip_by_split p w) as (b & Hb & _).
  unfold spaceless in *. rewrite Hb in Hw. by apply Forall_app in Hw as [? _].
Qed.

Lemma is_abbreviation_same p i cur :
  is_abbreviation ua A p i cur = is_abbreviation ua B p i cur.
Proof.
  unfold is_abbreviation.
  destruct (last _) as [w|] eqn:Hlast; [|done].
  assert (spaceless w) as Hw.
  { pose proof (split_ws_go_spaceless (Str.strip cur) []) as Hall.
    rewrite Forall_forall in Hall. apply Hall; [constructor|].
    by apply last_Some_elem_of. }
  unfold Str.rstrip_chars.
  rewrite (bool_decide_ext _ _ (same_spaceless _ (rstrip_by_spaceless _ w Hw))).
  by rewrite (bool_decide_ext _ _ (same_spaceless w Hw)).
Qed.

Lemma scan_step_same p st : scan_step ua A p st = scan_step ua B p st.
Proof.
  unfold scan_step. destruct (p !! pos st) as [c|]; [|done].
  cbn [mbind option_bind]. destruct (terminator c); [|done].
  cbv zeta. by rewrite is_abbreviation_same.
Qed.

Lemma scan_same p fuel : ∀ st, scan ua A fuel p st = scan ua B fuel p st.
Proof.
  induction fuel as [|fuel IH]; intros st; simpl; [done|].
  rewrite scan_step_same. destruct (length p <=? pos st); [done|].
  destruct (scan_step ua B p st); simpl; [apply IH|done].
Qed.

Lemma do_paragraph_same ps acc p : do_paragraph ua A ps acc p = do_paragraph ua B ps acc p.
Proof. unfold do_paragraph. by rewrite scan_same. Qed.

Lemma for_paragraphs_same ps todo : ∀ acc,
  for_paragraphs ua A ps acc todo = for_paragraphs ua B ps acc todo.
Proof.
  induction todo as [|p todo IH]; intros acc; simpl; [done|].
  rewrite do_paragraph_same. destruct (do_paragraph ua B ps acc p); simpl; [apply IH|done].
Qed.

Lemma split_into_sentences_same text :
  split_into_sentences ua A text = split_into_sentences ua B text.
Proof. unfold split_into_sentences. by rewrite for_paragraphs_same. Qed.

End SpacelessAbbreviations.

Section SpacelessTheorem.
Variable ua : char → bool.
Variable A : gset pystr.

(** X13. An abbreviation that has whitespace in it is never used: without
    these entries the tokens of every text are the same. *)
Theorem X13_abbreviations_with_whitespace_unused text :
  split_into_sentences ua A text
  = split_into_sentences ua (filter spaceless A) text.
Proof.
  apply split_into_sentences_same. intros w Hw. rewrite elem_of_filter.
  split; [by split|by intros [_ ?]].
Qed.

End SpacelessTheorem.

(** ** What the matcher finds *)

Section MatcherComplete.
Import Re.

Lemma same_length_nil (u v : pystr) :
  (length v =? length (u ++ v)) = bool_decide (u = []).
Proof.
  destruct u as [|c u]; simpl.
  - by rewrite Nat.eqb_refl.
  - rewrite length_app. apply Nat.eqb_neq. lia.
Qed.

(** The matcher finds a match when there is one. *)
Lemma run_complete b r s1 s2 :
  matches b r s1 s2 →
  (∀ k, is_Some (k s2) → is_Some (run r (s1 ++ s2) b k))
  ∧ (∀ r', r = Star r' → ∀ n k, length (s1 ++ s2) ≤ n → is_Some (k s2) →
       is_Some (iterate (run r') n (s1 ++ s2) b k)).
Proof.
  induction 1 as [s2|b|b|b p c s2 Hc|b p|b p c s2 Hc
                 |b r1 r2 u v s2 _ [IH1 _] _ [IH2 _]
                 |b r s2
                 |b r u v s2 Hu _ [IHr _] _ [_ IHs]
                 |b r u v s2 _ [IHr _] _ [_ IHs]].
  - split; [|done]. by intros k Hk.
  - split; [|done]. by intros k Hk.
  - split; [|done]. by intros k Hk.
  - split; [|done]. intros k Hk. simpl. by rewrite Hc.
  - split; [|done]. by intros k Hk.
  - split; [|done]. intros k Hk. simpl. by rewrite Hc.
  - split; [|done]. intros k Hk. rewrite <- app_assoc. cbn [run].
    apply IH1. rewrite (same_length_nil u (v ++ s2)).
    by apply IH2.
  - assert (∀ n k, is_Some (k s2) → is_Some (iterate (run r) n s2 b k)) as Hnil.
    { intros [|n] k Hk; simpl; [done|]. by destruct (run r s2 b _). }
    split; [intros k Hk; by apply Hnil|]. intros r' [= <-] n k _ Hk. by apply Hnil.
  - assert (∀ n k, length ((u ++ v) ++ s2) ≤ n → is_Some (k s2) →
              is_Some (iterate (run r) n ((u ++ v) ++ s2) b k)) as Hcons.
    { intros n k Hn Hk. destruct n as [|n].
      { destruct u; [done|simpl in Hn; lia]. }
      cbn [iterate].
      assert (is_Some (run r ((u ++ v) ++ s2) b
                (λ s', if length s' <? length ((u ++ v) ++ s2)
                       then iterate (run r) n s' false k else None))) as [e ->]; [|done].
      rewrite <- app_assoc. apply IHr.
      destruct (Nat.ltb_spec (length (v ++ s2)) (length (u ++ v ++ s2))) as [_|Hge].
      - apply (IHs r eq_refl); [|done]. rewrite <- app_assoc, length_app in Hn.
        destruct u; [done|simpl in Hn; lia].
      - rewrite length_app in Hge. destruct u; [done|simpl in Hge; lia]. }
    split; [intros k Hk; by apply Hcons|]. intros r' [= <-]. apply Hcons.
  - split; [|done]. intros k Hk. rewrite <- app_assoc. cbn [run].
    apply IHr. rewrite (same_length_nil u (v ++ s2)).
    by apply (IHs r eq_refl).
Qed.

Lemma re_match_complete r s : matches true r s [] → re_match r s = true.
Proof.
  intros Hm. unfold re_match, match_at. apply bool_decide_eq_true.
  destruct (proj1 (run_complete _ _ _ _ Hm) Some) as [e He]; [done|].
  rewrite app_nil_r in He. rewrite He. by eexists.
Qed.

End MatcherComplete.

(** ** Words of three letters or more *)

Section LongWords.
Variable ua : char → bool.
Variable A : gset pystr.

Lemma matches_star_letters l : letters l → ∀ b s2,
  matches b (Re.Star (Re.Class Chr.letter_az)) l s2.
Proof.
  induction 1 as [|c l Hc _ IH]; intros b s2; [constructor|].
  apply (matches_star_cons b _ [c] l); [done|by constructor|apply IH].
Qed.

Lemma matches_plus_letters c l : letters (c :: l) → ∀ b s2,
  matches b (Re.Plus (Re.Class Chr.letter_az)) (c :: l) s2.
Proof.
  intros [Hc Hl]%Forall_cons b s2.
  apply (matches_plus b _ [c] l); [by constructor|by apply matches_star_letters].
Qed.

(** One group of the multi-part pattern: letters, then any character but
    a newline. *)
Lemma matches_group c l d : letters (c :: l) → d ≠ Chr.NL → ∀ b s2,
  matches b (Re.Cat (Re.Plus (Re.Class Chr.letter_az)) Re.Dot) ((c :: l) ++ [d]) s2.
Proof.
  intros Hl Hd b s2. apply matches_cat; [by apply matches_plus_letters|].
  constructor. by apply negb_true_iff, N.eqb_neq.
Qed.

Lemma letter_not_newline c : Chr.letter_az c = true → c ≠ Chr.NL.
Proof. by intros Hc ->. Qed.

(** The multi-part pattern matches every word of three letters or more
    followed by one character: all but the last letter are the first
    group, the character before last stands for its dot. *)
Lemma multi_part_long_word l d :
  letters l → 3 ≤ length l → d ≠ Chr.NL →
  Re.re_match Pat.MULTI_PART (l ++ [d]) = true.
Proof.
  intros Hl Hlen Hd. apply re_match_complete.
  destruct l as [|c l] using rev_ind; [simpl in Hlen; lia|clear IHl].
  destruct l as [|a l] using rev_ind; [simpl in Hlen; lia|clear IHl].
  destruct l as [|x l]; [simpl in Hlen; lia|].
  apply Forall_app in Hl as [[Hl Ha%Forall_inv]%Forall_app Hc%Forall_inv].
  assert ((((x :: l) ++ [a]) ++ [c]) ++ [d]
          = [] ++ (((x :: l) ++ [a]) ++ ([c] ++ [d]) ++ [])) as ->.
  { by rewrite app_nil_r, <- !app_assoc. }
  unfold Pat.MULTI_PART, Re.seq.
  apply matches_cat; [constructor|]. cbn [andb].
  rewrite bool_decide_eq_true_2 by done.
  apply matches_cat.
  { apply matches_group; [done|by apply letter_not_newline]. }
  apply matches_cat; [|constructor].
  rewrite <- (app_nil_r ([c] ++ [d])).
  apply matches_plus; [|constructor].
  apply (matches_group c []); [by constructor|done].
Qed.

(** The last word of a buffer that ends with a word put after whitespace,
    or alone. *)
Lemma split_ws_go_word wd : spaceless wd → wd ≠ [] → ∀ w,
  Str.split_ws_go wd w = [w ++ wd].
Proof.
  induction 1 as [|c wd Hc _ IH]; [done|]. intros _ w. simpl. rewrite Hc.
  destruct wd as [|d wd].
  - simpl. by destruct (w ++ [c]) eqn:Hw; [destruct w|].
  - rewrite IH by done. by rewrite <- app_assoc.
Qed.

Lemma split_ws_go_last_word wd y :
  spaceless wd → wd ≠ [] → ∀ w,
  (y = [] → w = []) → (∀ c, last y = Some c → Chr.isspace c = true) →
  last (Str.split_ws_go (y ++ wd) w) = Some wd.
Proof.
  intros Hwd Hne. induction y as [|c y IH]; intros w Hw Hlast.
  - rewrite (Hw eq_refl). simpl. by rewrite split_ws_go_word.
  - cbn [app Str.split_ws_go].
    assert (∀ c', last y = Some c' → Chr.isspace c' = true) as Hlast'.
    { intros c' Hc'. apply Hlast. destruct y; [done|]. by rewrite last_cons_cons. }
    destruct (Chr.isspace c) eqn:Hc.
    + assert (last (Str.split_ws_go (y ++ wd) []) = Some wd) as Hrec by by apply IH.
      destruct w; [done|]. rewrite last_cons, Hrec. done.
    + apply IH; [|done]. intros ->. specialize (Hlast c eq_refl). congruence.
Qed.

Lemma last_word_of_buffer cur0 wd :
  spaceless wd → wd ≠ [] → (∀ c, last cur0 = Some c → Chr.isspace c = true) →
  last (Str.split_ws (Str.strip (cur0 ++ wd))) = Some wd.
Proof.
  intros Hwd Hne Hlast.
  destruct (lstrip_by_split Chr.isspace cur0) as (a & Ha & Hblank).
  set (y := Str.lstrip_by Chr.isspace cur0) in *.
  assert (Str.strip (cur0 ++ wd) = y ++ wd) as ->.
  { transitivity (Str.strip (a ++ (y ++ wd) ++ [])).
    { f_equal. rewrite app_nil_r, app_assoc. by rewrite <- Ha. }
    apply strip_unique; [done|apply blank_nil| |].
    - intros c r Heq. destruct y as [|d y'] eqn:Hy.
      + destruct wd as [|e wd']; [done|]. injection Heq as <- _.
        by apply Forall_inv in Hwd.
      + injection Heq as <- _. by eapply lstrip_by_head.
    - intros c Hc. rewrite last_app in Hc.
      destruct (last wd) as [e|] eqn:Hl; [|by apply last_None in Hl].
      injection Hc as <-. unfold spaceless in Hwd. rewrite Forall_forall in Hwd.
      by apply Hwd, last_Some_elem_of. }
  apply split_ws_go_last_word; [done|done|done|].
  intros c Hc. apply Hlast. rewrite Ha, last_app, Hc. done.
Qed.

Lemma letter_not_space c : Chr.letter_az c = true → Chr.isspace c = false.
Proof.
  unfold Chr.letter_az, Chr.upper_az, Chr.lower_az, Chr.between.
  rewrite orb_true_iff, !andb_true_iff, !N.leb_le. intros Hc.
  assert (65 ≤ c ≤ 122)%N as [Hlo Hhi] by lia. clear Hc.
  unfold Chr.isspace, Chr.between.
  replace (c <=? 13)%N with false by (symmetry; apply N.leb_gt; lia).
  replace (c <=? 32)%N with false by (symmetry; apply N.leb_gt; lia).
  replace (8192 <=? c)%N with false by (symmetry; apply N.leb_gt; lia).
  replace (c =? 133)%N with false by (symmetry; apply N.eqb_neq; lia).
  replace (c =? 160)%N with false by (symmetry; apply N.eqb_neq; lia).
  replace (c =? 5760)%N with false by (symmetry; apply N.eqb_neq; lia).
  replace (c =? 8232)%N with false by (symmetry; apply N.eqb_neq; lia).
  replace (c =? 8233)%N with false by (symmetry; apply N.eqb_neq; lia).
  replace (c =? 8239)%N with false by (symmetry; apply N.eqb_neq; lia).
  replace (c =? 8287)%N with false by (symmetry; apply N.eqb_neq; lia).
  replace (c =? 12288)%N with false by (symmetry; apply N.eqb_neq; lia).
  by rewrite !andb_false_r.
Qed.

Lemma letter_spaceless l : letters l → spaceless (l ++ [Chr.DOT]).
Proof.
  intros Hl. apply Forall_app. split; [|by repeat constructor].
  eapply Forall_impl; [done|]. intros c Hc. by apply letter_not_space.
Qed.

(** X14. A full stop after a word of three or more ASCII letters never
    closes a sentence, whatever the abbreviations and whatever follows:
    the multi-part pattern, whose dots stand for any character, takes the
    word for an abbreviation. *)
Theorem X14_full_stop_after_long_word_never_closes p st cur0 l :
  p !! pos st = Some Chr.DOT →
  current_sentence st = cur0 ++ l →
  (∀ c, last cur0 = Some c → Chr.isspace c = true) →
  letters l → 3 ≤ length l →
  ∃ st', scan_step ua A p st = Some st' ∧ sentences st' = sentences st.
Proof.
  intros Hc Hcur Hlast Hl Hlen.
  destruct (decide (pos st + 2 < length p
                    ∧ Str.slice p (pos st + 1) (pos st + 3) = [Chr.DOT; Chr.DOT]))
    as [[Hlt Hdots]|Hno].
  { by apply ellipsis_never_closes. }
  unfold scan_step. rewrite Hc. cbn [mbind option_bind].
  change (terminator Chr.DOT) with true. cbv beta iota zeta.
  assert ((pos st + 2 <? length p)
          && bool_decide (Str.slice p (pos st + 1) (pos st + 3) = [Chr.DOT; Chr.DOT])
          = false) as Hell.
  { apply andb_false_iff.
    destruct (Nat.ltb_spec (pos st + 2) (length p)); [|by left]. right.
    apply bool_decide_eq_false. tauto. }
  rewrite N.eqb_refl. cbn [andb]. rewrite Hell.
  assert (is_abbreviation ua A p (pos st) (current_sentence st ++ [Chr.DOT]) = Some true)
    as ->.
  { unfold is_abbreviation. rewrite Hcur, <- app_assoc.
    rewrite last_word_of_buffer; [|by apply letter_spaceless|by destruct l|done].
    by rewrite multi_part_long_word. }
  cbn [mbind option_bind negb andb]. rewrite !andb_false_r. by eexists.
Qed.

End LongWords.

(** The round at the full stop of ["He went home."]. *)
Lemma X14_full_stop_after_long_word_never_closes_witness :
  py "He went home." !! 12 = Some Chr.DOT
  ∧ py "He went home" = py "He went " ++ py "home"
  ∧ (∀ c, last (py "He went ") = Some c → Chr.isspace c = true)
  ∧ Forall (λ c, Chr.letter_az c = true) (py "home")
  ∧ 3 ≤ length (py "home")
  ∧ ∃ st', scan_step (λ _, false) DEFAULT_ABBREVIATIONS (py "He went home.")
             (ScanState 12 (py "He went home") []) = Some st'
      ∧ sentences st' = [].
Proof.
  assert (∀ c, last (py "He went ") = Some c → Chr.isspace c = true) as Hlast
    by by intros c [= <-].
  assert (Forall (λ c, Chr.letter_az c = true) (py "home")) as Hl
    by by repeat constructor.
  split; [reflexivity|]. split; [reflexivity|]. split; [done|]. split; [done|].
  split; [vm_compute; lia|].
  apply (X14_full_stop_after_long_word_never_closes (λ _, false) DEFAULT_ABBREVIATIONS
           (py "He went home.") (ScanState 12 (py "He went home") [])
           (py "He went ") (py "home")); [reflexivity|reflexivity|done|done|vm_compute; lia].
Defined.

(** ** Words of the abbreviation set *)

Section ListedAbbreviations.
Variable ua : char → bool.
Variable A : gset pystr.

Lemma rstrip_chars_dot w :
  Str.rstrip_chars [Chr.DOT] (w ++ [Chr.DOT]) = Str.rstrip_chars [Chr.DOT] w.
Proof.
  unfold Str.rstrip_chars. apply rstrip_by_app_all.
  by repeat constructor.
Qed.

Lemma is_abbreviation_listed p i cur0 w :
  (∀ c, last cur0 = Some c → Chr.isspace c = true) →
  spaceless w →
  Str.rstrip_chars [Chr.DOT] w ∈ A ∨ w ++ [Chr.DOT] ∈ A →
  is_abbreviation ua A p i (cur0 ++ w ++ [Chr.DOT]) = Some true.
Proof.
  intros Hlast Hw Hin. unfold is_abbreviation.
  rewrite last_word_of_buffer; [|by apply Forall_app; split; [|repeat constructor]
                                |by destruct w|done].
  destruct (_ || _); [done|].
  destruct (alpha_then_dot_total ua (length (w ++ [Chr.DOT]) =? 2) (w ++ [Chr.DOT]) 0)
    as [two ->]; [intros Hlen%Nat.eqb_eq; lia|].
  cbn [mbind option_bind]. destruct two; [done|].
  destruct (alpha_then_dot_total ua (i + 2 <? length p) p (i + 1)) as [mid ->].
  { intros ?%Nat.ltb_lt. lia. }
  cbn [mbind option_bind]. destruct mid; [done|].
  cbv zeta. rewrite rstrip_chars_dot.
  destruct Hin as [Hin|Hin].
  - by rewrite (bool_decide_eq_true_2 _ Hin).
  - rewrite (bool_decide_eq_true_2 (w ++ [Chr.DOT] ∈ A) Hin). by destruct (bool_decide _).
Qed.

(** X15. A full stop after a word of the abbreviation set never closes a
    sentence: the word is looked up without the full stops at its end, and
    with the full stop that was just read. *)
Theorem X15_full_stop_after_listed_abbreviation_never_closes p st cur0 w :
  p !! pos st = Some Chr.DOT →
  current_sentence st = cur0 ++ w →
  (∀ c, last cur0 = Some c → Chr.isspace c = true) →
  spaceless w →
  Str.rstrip_chars [Chr.DOT] w ∈ A ∨ w ++ [Chr.DOT] ∈ A →
  ∃ st', scan_step ua A p st = Some st' ∧ sentences st' = sentences st.
Proof.
  intros Hc Hcur Hlast Hw Hin.
  destruct (decide (pos st + 2 < length p
                    ∧ Str.slice p (pos st + 1) (pos st + 3) = [Chr.DOT; Chr.DOT]))
    as [[Hlt Hdots]|Hno].
  { by apply ellipsis_never_closes. }
  unfold scan_step. rewrite Hc. cbn [mbind option_bind].
  change (terminator Chr.DOT) with true. cbv beta iota zeta.
  assert ((pos st + 2 <? length p)
          && bool_decide (Str.slice p (pos st + 1) (pos st + 3) = [Chr.DOT; Chr.DOT])
          = false) as Hell.
  { apply andb_false_iff.
    destruct (Nat.ltb_spec (pos st + 2) (length p)); [|by left]. right.
    apply bool_decide_eq_false. tauto. }
  rewrite N.eqb_refl. cbn [andb]. rewrite Hell.
  rewrite Hcur, <- app_assoc, is_abbreviation_listed by done.
  cbn [mbind option_bind negb andb]. rewrite !andb_false_r. by eexists.
Qed.

End ListedAbbreviations.

(** The round at the full stop of [Dr.] in ["Dr. Smith went home."]. *)
Lemma X15_full_stop_after_listed_abbreviation_never_closes_witness :
  py "Dr. Smith went home." !! 2 = Some Chr.DOT
  ∧ py "Dr" = [] ++ py "Dr"
  ∧ (∀ c, last (@nil char) = Some c → Chr.isspace c = true)
  ∧ spaceless (py "Dr")
  ∧ (Str.rstrip_chars [Chr.DOT] (py "Dr") ∈ DEFAULT_ABBREVIATIONS
     ∨ py "Dr" ++ [Chr.DOT] ∈ DEFAULT_ABBREVIATIONS)
  ∧ ∃ st', scan_step (λ _, false) DEFAULT_ABBREVIATIONS (py "Dr. Smith went home.")
             (ScanState 2 (py "Dr") []) = Some st'
      ∧ sentences st' = [].
Proof.
  assert (spaceless (py "Dr")) as Hw by by repeat constructor.
  assert (Str.rstrip_chars [Chr.DOT] (py "Dr") ∈ DEFAULT_ABBREVIATIONS
          ∨ py "Dr" ++ [Chr.DOT] ∈ DEFAULT_ABBREVIATIONS) as Hin.
  { left. apply elem_of_list_to_set.
    change (Str.rstrip_chars [Chr.DOT] (py "Dr")) with (py "Dr").
    cbn [map]. do 3 apply list_elem_of_further. apply list_elem_of_here. }
  split; [reflexivity|]. split; [reflexivity|]. split; [done|].
  split; [done|]. split; [done|].
  apply (X15_full_stop_after_listed_abbreviation_never_closes (λ _, false)
           DEFAULT_ABBREVIATIONS (py "Dr. Smith went home.") (ScanState 2 (py "Dr") [])
           [] (py "Dr")); [reflexivity|reflexivity|done|done|done].
Defined.

(** ** The paragraphs of a normalized text and the blocks of its source *)

Section SqueezeFacts.
Import Re.
















End SqueezeFacts.

Section ParagraphsOfSource.
Import Re.









Lemma split_go_skip sep x rest piece :
  Str.split_go sep (x ++ rest) (length x) piece = Str.split_go sep rest 0 piece.
Proof. induction x as [|c x IH]; [done|]. apply IH. Qed.





End ParagraphsOfSource.

Section MarkerTheorem.
Variable ua : char → bool.
Variable A : gset pystr.


End MarkerTheorem.

